(** * The in-memory stream of the async output service

    A shallow embedding of [server/engine/in_memory_stream_impl.go]: the
    bounded stream behind one stream id, with its two ways of writing
    (circular overwrite, bounded blocking), its long-poll read and [Stop].

    The embedding follows one goroutine at a time.  A Go channel is a record
    (queue, capacity, closed flag); a [select] polls its arms, and among the
    arms that can proceed one is taken by a pseudo-random choice, here the
    [pick] of the caller's environment.  A [select] none of whose arms can
    proceed waits, and with nobody else around it is the timer that ends
    the wait.  The only place where another goroutine is let in is the one
    the source itself points at: the window between the removal of the
    oldest entry and the renewed attempt to enqueue inside the overwrite
    loop. *)

From Stdlib Require Import ZArith Bool String List Lia.
Import ListNotations.
Open Scope Z_scope.

(** ** Results of a call *)

(** A call returns, panics (send on or close of a closed channel, negative
    channel size), blocks for ever (a receive that no goroutine will ever
    serve) or, for the embedding of the loop only, runs out of fuel. *)
Inductive outcome (A : Type) : Type :=
| Returns (a : A)
| Panics
| Blocks
| OutOfFuel.
Arguments Returns {A} a.
Arguments Panics {A}.
Arguments Blocks {A}.
Arguments OutOfFuel {A}.

(** ** Machine integers and durations *)

(** Go's [int] and [time.Duration] are 64-bit signed integers here. *)
Definition wrap64 (z : Z) : Z := (z + 2 ^ 63) mod 2 ^ 64 - 2 ^ 63.
Arguments wrap64 : simpl never.

(** The largest [int]. *)
Definition MaxInt64 : Z := 9223372036854775807.

(** [time.Second], in nanoseconds. *)
Definition Second : Z := 1000000000.

(** [time.Duration(timeoutSeconds) * time.Second]. *)
Definition Duration (timeoutSeconds : Z) : Z := wrap64 (timeoutSeconds * Second).

(** [time.After d] at the moment the [select] that holds it polls its
    arms.  A duration of zero or less is over as soon as the timer is
    made, and its channel can be received from; a positive one (a second
    at least, here) is still running, calls taking no time of their own. *)
Definition expired (d : Z) : bool := d <=? 0.

(** ** Channels *)

Module Chan.

Record t (A : Type) : Type := mk {
  buf : list A;      (* queued values, oldest first *)
  cap : Z;           (* size given to make *)
  closed : bool
}.
Arguments mk {A} buf cap closed.
Arguments buf {A} _.
Arguments cap {A} _.
Arguments closed {A} _.

Definition len {A} (c : t A) : Z := Z.of_nat (length (buf c)).

(** [make(chan A, size)]: a negative size panics.  (So does a size
    beyond what the runtime can allocate; that bound depends on the platform
    and is left out.) *)
Definition make {A} (size : Z) : outcome (t A) :=
  if size <? 0 then Panics else Returns (mk [] size false).

(** A send can proceed when there is room; on a closed channel it
    proceeds by panicking. *)
Definition can_send {A} (c : t A) : bool := closed c || (len c <? cap c).

(** A receive can proceed when a value is queued or the channel is
    closed. *)
Definition can_recv {A} (c : t A) : bool :=
  closed c || negb (match buf c with [] => true | _ => false end).

(** [c <- x], once it can proceed. *)
Definition send {A} (c : t A) (x : A) : outcome (t A) :=
  if closed c then Panics else Returns (mk (buf c ++ [x]) (cap c) (closed c)).

(** [<-c]: the oldest queued value; the zero value of a closed and
    drained channel; otherwise the goroutine waits. *)
Definition recv {A} (zero : A) (c : t A) : outcome (A * t A) :=
  match buf c with
  | x :: rest => Returns (x, mk rest (cap c) (closed c))
  | [] => if closed c then Returns (zero, c) else Blocks
  end.

(** [close(c)]. *)
Definition close {A} (c : t A) : outcome (t A) :=
  if closed c then Panics else Returns (mk (buf c) (cap c) true).

(** What a sender of another goroutine does to the channel when it gets
    there first: its value goes in if the channel is open and has room. *)
Definition barge {A} (c : t A) (x : option A) : t A :=
  match x with
  | Some v => if negb (closed c) && (len c <? cap c)
              then mk (buf c ++ [v]) (cap c) (closed c) else c
  | None => c
  end.

End Chan.

(** ** select *)

Inductive arm : Type := SendArm | RecvArm | StopArm | TimerArm.

(** The arms that can proceed, in the order of the source. *)
Definition poll (arms : list (arm * bool)) : list arm :=
  map fst (filter snd arms).

(** One ready arm, chosen by [pick]; [None] when no arm is ready. *)
Definition selectgo (pick : nat) (ready : list arm) : option arm :=
  nth_error ready (pick mod length ready)%nat.

(** ** Data of the engine *)

(** Modelled from the spec: the declaration of [OutputType] is not among
    the sources.  The payload is "treated as opaque bytes/JSON document by
    the core": a string. *)
Definition OutputType : Type := string.

(** Modelled from the spec: the declaration of [ErrorType] is not among the
    sources.  Its values are the constants that the engine returns, one for
    each of the "internal error kinds" of the spec that a stream can
    answer. *)
Inductive ErrorType : Type :=
| ErrorTypeNone
| ErrorTypeStreamStopped
| ErrorTypeInvalidRequest
| ErrorTypeCircularBufferIterationLimit
| ErrorTypeWaitingTimeout.

(** [uuid.UUID] is 16 bytes, [time.Time] an instant; both are carried
    through unchanged, as numbers. *)
Definition UUID : Type := Z.
Definition Time : Type := Z.

Record StreamEntry : Type := mkEntry {
  OutputUUID : UUID;
  Output : OutputType;
  Timestamp : Time
}.

Definition zeroEntry : StreamEntry := mkEntry 0 EmptyString 0.

(** Modelled from the spec: the declaration of [InternalReceiveResponse] is
    not among the sources.  Its fields are the three that [Receive] fills,
    the "outputUuid, output, timestamp" of a response. *)
Record InternalReceiveResponse : Type := mkResponse {
  OutputUuid : UUID;
  RespOutput : OutputType;
  RespTimestamp : Time
}.

(** Go's [error] values of this file; [None] is [nil]. *)
Inductive err : Type :=
| ErrStreamStopped
| ErrZeroCapacity        (* "zero capacity circular buffer is not allowed" *)
| ErrStillFull (iterations : Z)  (* "... still full after removing oldest entry for %d iterations" *)
| ErrSpaceTimeout.       (* "timeout waiting for stream space (424)" *)
Definition error : Type := option err.

(** The stream.  [stopCh] is an unbuffered channel nobody sends on: all of
    its state is whether it has been closed.  The embedded [RWMutex] is
    free whenever a call starts, since a call that takes it gives it back
    before returning; it carries no state between calls. *)
Record InMemoryStreamImpl : Type := mkStream {
  outputs : Chan.t StreamEntry;
  stopped : bool;
  capacity : Z;
  stopCh_closed : bool
}.

Definition with_outputs (i : InMemoryStreamImpl) (c : Chan.t StreamEntry) :=
  mkStream c (stopped i) (capacity i) (stopCh_closed i).

(** The package-level variable. *)
Record Process : Type := mkProcess { circularBufferMaxIterations : Z }.

Definition initialProcess : Process := mkProcess 100.

Definition SetCircularBufferMaxIterations (maxIterations : Z) (p : Process) : Process :=
  mkProcess maxIterations.

(** What one call meets from outside: the pseudo-random choice of each of
    its [select]s (number 0 is the first one, number [k] the one of the
    [k]-th turn of the overwrite loop), and the entry, if any, that a sender
    of another goroutine puts into the channel right after the [k]-th
    removal of the oldest entry.  Senders are the only others that the
    embedding lets in: a receiver of another goroutine that takes entries
    while a call is under way is not represented, and what is stated for
    an [Env] is stated for calls that no such receiver disturbs. *)
Record Env : Type := mkEnv {
  pick : Z -> nat;
  intruder : Z -> option StreamEntry
}.

(** A call with no other goroutine around. *)
Definition alone (pick : Z -> nat) : Env := mkEnv pick (fun _ => None).

(** ** The operations *)

Definition NewInMemoryStreamImpl (size : Z) : outcome InMemoryStreamImpl :=
  match Chan.make size with
  | Returns c => Returns (mkStream c false size false)
  | Panics => Panics
  | Blocks => Blocks
  | OutOfFuel => OutOfFuel
  end.

Definition send_result := (outcome (ErrorType * error) * InMemoryStreamImpl)%type.

(** The arm [case outputsChan <- entry] once chosen. *)
Definition do_send (i : InMemoryStreamImpl) (entry : StreamEntry) : send_result :=
  match Chan.send (outputs i) entry with
  | Returns c => (Returns (ErrorTypeNone, None), with_outputs i c)
  | _ => (Panics, i)
  end.

Definition stream_stopped (i : InMemoryStreamImpl) : send_result :=
  (Returns (ErrorTypeStreamStopped, Some ErrStreamStopped), i).

(** The [for] loop of [sendCircularBufferWithChannel], lines 94-112.
    [iterations] is the counter on entry of a turn; it is an [int], and
    [iterations++] wraps around.  With a cap below [MaxInt64] the loop
    leaves after at most [max + 1] turns.  With the cap at [MaxInt64] the
    test [iterations > circularBufferMaxIterations] never holds and the
    loop goes on for as long as its retries are lost; [fuel] bounds the
    turns of the embedding. *)
Fixpoint overwrite_loop (fuel : nat) (max : Z) (env : Env) (iterations : Z)
    (i : InMemoryStreamImpl) (entry : StreamEntry) : send_result :=
  match fuel with
  | O => (OutOfFuel, i)
  | S fuel' =>
    let iterations := wrap64 (iterations + 1) in         (* iterations++ *)
    if max <? iterations then
      (Returns (ErrorTypeCircularBufferIterationLimit, Some (ErrStillFull iterations)), i)
    else
      match Chan.recv zeroEntry (outputs i) with        (* <-outputsChan *)
      | Returns (_, c) =>
        let i := with_outputs i (Chan.barge c (intruder env iterations)) in
        match selectgo (pick env iterations)
                (poll [(SendArm, Chan.can_send (outputs i));
                       (StopArm, stopCh_closed i)]) with
        | Some SendArm => do_send i entry
        | Some StopArm => stream_stopped i
        | _ => overwrite_loop fuel' max env iterations i entry
        end
      | Panics => (Panics, i)
      | Blocks => (Blocks, i)
      | OutOfFuel => (OutOfFuel, i)
      end
  end.

(** [sendCircularBufferWithChannel]; its channel argument is [i.outputs]
    itself, a reference to the one channel of the stream. *)
Definition sendCircularBufferWithChannel (p : Process) (env : Env)
    (i : InMemoryStreamImpl) (entry : StreamEntry) : send_result :=
  if capacity i =? 0 then
    (Returns (ErrorTypeInvalidRequest, Some ErrZeroCapacity), i)
  else
    match selectgo (pick env 0)
            (poll [(SendArm, Chan.can_send (outputs i));
                   (StopArm, stopCh_closed i)]) with
    | Some SendArm => do_send i entry
    | Some StopArm => stream_stopped i
    | _ =>
      (* default: the channel is full; i.Lock() *)
      if stopped i then stream_stopped i
      else
        let max := circularBufferMaxIterations p in
        overwrite_loop (S (Z.to_nat max)) max env 0 i entry
    end.

(** [sendBlockingQueueWithChannel].  When no arm is ready the goroutine
    waits; with no other goroutine around, the timer is what wakes it. *)
Definition sendBlockingQueueWithChannel (env : Env) (i : InMemoryStreamImpl)
    (entry : StreamEntry) (timeoutSeconds : Z) : send_result :=
  match selectgo (pick env 0)
          (poll [(SendArm, Chan.can_send (outputs i));
                 (StopArm, stopCh_closed i);
                 (TimerArm, expired (Duration timeoutSeconds))]) with
  | Some SendArm => do_send i entry
  | Some StopArm => stream_stopped i
  | _ => (Returns (ErrorTypeWaitingTimeout, Some ErrSpaceTimeout), i)
  end.

Definition Send (p : Process) (env : Env) (i : InMemoryStreamImpl)
    (output : OutputType) (outputUuid : UUID) (timestamp : Time)
    (blockingWriteTimeoutSeconds : Z) : send_result :=
  if stopped i then stream_stopped i
  else
    let entry := mkEntry outputUuid output timestamp in
    if blockingWriteTimeoutSeconds <=? 0 then
      sendCircularBufferWithChannel p env i entry
    else
      sendBlockingQueueWithChannel env i entry blockingWriteTimeoutSeconds.

Definition receive_result :=
  (outcome (option InternalReceiveResponse * ErrorType * error) * InMemoryStreamImpl)%type.

Definition Receive (pick : nat) (i : InMemoryStreamImpl) (timeoutSeconds : Z)
    : receive_result :=
  if stopped i then (Returns (None, ErrorTypeStreamStopped, Some ErrStreamStopped), i)
  else
    match selectgo pick
            (poll [(RecvArm, Chan.can_recv (outputs i));
                   (StopArm, stopCh_closed i);
                   (TimerArm, expired (Duration timeoutSeconds))]) with
    | Some RecvArm =>
      match Chan.recv zeroEntry (outputs i) with
      | Returns (entry, c) =>
        (Returns (Some (mkResponse (OutputUUID entry) (Output entry) (Timestamp entry)),
                  ErrorTypeNone, None),
         with_outputs i c)
      | _ => (Blocks, i)
      end
    | Some StopArm => (Returns (None, ErrorTypeStreamStopped, Some ErrStreamStopped), i)
    | _ => (Returns (None, ErrorTypeWaitingTimeout, None), i)
    end.

(** [Stop]: a stream that is already stopped is left alone; otherwise the
    flag is set and both channels are closed, in the order of the source. *)
Definition Stop (i : InMemoryStreamImpl) : outcome error * InMemoryStreamImpl :=
  if stopped i then (Returns None, i)
  else
    let i := mkStream (outputs i) true (capacity i) (stopCh_closed i) in
    if stopCh_closed i then (Panics, i)                 (* close(i.stopCh) *)
    else
      let i := mkStream (outputs i) (stopped i) (capacity i) true in
      match Chan.close (outputs i) with                 (* close(i.outputs) *)
      | Returns c => (Returns None, with_outputs i c)
      | _ => (Panics, i)
      end.

(** ** Sequences of calls on one stream *)

Inductive call : Type :=
| CallSend (p : Process) (env : Env) (output : OutputType) (outputUuid : UUID)
           (timestamp : Time) (blockingWriteTimeoutSeconds : Z)
| CallReceive (pick : nat) (timeoutSeconds : Z)
| CallStop.

Inductive reply : Type :=
| SendReply (r : outcome (ErrorType * error))
| ReceiveReply (r : outcome (option InternalReceiveResponse * ErrorType * error))
| StopReply (r : outcome error).

Definition step (i : InMemoryStreamImpl) (c : call) : reply * InMemoryStreamImpl :=
  match c with
  | CallSend p env output outputUuid timestamp t =>
    let (r, i') := Send p env i output outputUuid timestamp t in (SendReply r, i')
  | CallReceive pick t =>
    let (r, i') := Receive pick i t in (ReceiveReply r, i')
  | CallStop =>
    let (r, i') := Stop i in (StopReply r, i')
  end.

Fixpoint run (i : InMemoryStreamImpl) (cs : list call) : list reply * InMemoryStreamImpl :=
  match cs with
  | [] => ([], i)
  | c :: cs' =>
    let (r, i') := step i c in
    let (rs, i'') := run i' cs' in
    (r :: rs, i'')
  end.

(** The reply of a call that succeeded with [ErrorTypeNone]. *)
Definition is_ok (r : reply) : bool :=
  match r with
  | SendReply (Returns (ErrorTypeNone, _)) => true
  | ReceiveReply (Returns (_, ErrorTypeNone, _)) => true
  | _ => false
  end.

(** What a stopped stream answers. *)
Definition stopped_reply (c : call) : reply :=
  match c with
  | CallSend _ _ _ _ _ _ => SendReply (Returns (ErrorTypeStreamStopped, Some ErrStreamStopped))
  | CallReceive _ _ => ReceiveReply (Returns (None, ErrorTypeStreamStopped, Some ErrStreamStopped))
  | CallStop => StopReply (Returns None)
  end.

(** ** Vocabulary of the statements *)

Definition queue (i : InMemoryStreamImpl) : list StreamEntry := Chan.buf (outputs i).

(** A stream as the constructor and the operations leave it
    ([reachable_wf]): the flag and the two channels agree, the channel has
    the recorded capacity and holds no more than that. *)
Definition wf (i : InMemoryStreamImpl) : Prop :=
  stopCh_closed i = stopped i /\
  Chan.closed (outputs i) = stopped i /\
  Chan.cap (outputs i) = capacity i /\
  Chan.len (outputs i) <= capacity i.

Definition is_empty (i : InMemoryStreamImpl) : Prop := queue i = [].
Definition is_full (i : InMemoryStreamImpl) : Prop := Chan.len (outputs i) = capacity i.

(** The same stream with another queue. *)
Definition with_queue (i : InMemoryStreamImpl) (q : list StreamEntry) : InMemoryStreamImpl :=
  with_outputs i (Chan.mk q (Chan.cap (outputs i)) (Chan.closed (outputs i))).

(** What a call that is not [Stop] leaves untouched. *)
Definition same_frame (i i' : InMemoryStreamImpl) : Prop :=
  stopped i' = stopped i /\ capacity i' = capacity i /\
  stopCh_closed i' = stopCh_closed i /\
  Chan.cap (outputs i') = Chan.cap (outputs i) /\
  Chan.closed (outputs i') = Chan.closed (outputs i).

(** The channel holds no more than its size. *)
Definition fits (i : InMemoryStreamImpl) : Prop :=
  Chan.len (outputs i) <= Chan.cap (outputs i).

(** The queue after a circular write with nobody else around. *)
Definition overwritten (cap : Z) (q : list StreamEntry) (e : StreamEntry) : list StreamEntry :=
  if Z.of_nat (length q) <? cap then q ++ [e] else tl q ++ [e].

(** Timeouts, in seconds, whose duration in nanoseconds is positive. *)
Definition window (timeoutSeconds : Z) : Prop := 1 <= timeoutSeconds <= 9223372036.

Definition response_of (e : StreamEntry) : InternalReceiveResponse :=
  mkResponse (OutputUUID e) (Output e) (Timestamp e).

(** The entries that senders of other goroutines bring during the turns
    [k+1 .. k+n] of the overwrite loop. *)
Fixpoint arrivals (env : Env) (k : Z) (n : nat) : list StreamEntry :=
  match n with
  | O => []
  | S n' =>
    match intruder env (k + 1) with
    | Some x => x :: arrivals env (k + 1) n'
    | None => arrivals env (k + 1) n'
    end
  end.

(** Every one of the first [max] retries finds the freed slot taken. *)
Definition contended (env : Env) (max : Z) : Prop :=
  forall k, 1 <= k <= max -> intruder env k <> None.

(** The round trip of one entry: [Send] succeeds and the next [Receive]
    hands back the same uuid, payload and timestamp. *)
Definition round_trip (p : Process) (env : Env) (i : InMemoryStreamImpl)
    (e : StreamEntry) (blockingWriteTimeoutSeconds : Z)
    (pick : nat) (receiveTimeoutSeconds : Z) : Prop :=
  exists i1 i2,
    Send p env i (Output e) (OutputUUID e) (Timestamp e) blockingWriteTimeoutSeconds
      = (Returns (ErrorTypeNone, None), i1) /\
    Receive pick i1 receiveTimeoutSeconds
      = (Returns (Some (response_of e), ErrorTypeNone, None), i2).

Definition send_entry (p : Process) (env : Env) (i : InMemoryStreamImpl)
    (e : StreamEntry) (t : Z) : send_result :=
  Send p env i (Output e) (OutputUUID e) (Timestamp e) t.

(** Four circular sends with nobody else around, then two receives. *)
Definition circular_overflow (p : Process) (picks : Z -> nat) (i : InMemoryStreamImpl)
    (A B C D : StreamEntry) (tA tB tC tD : Z)
    (pick1 pick2 : nat) (r1 r2 : Z) : Prop :=
  exists iA iB iC iD i1 i2,
    send_entry p (alone picks) i A tA = (Returns (ErrorTypeNone, None), iA) /\
    send_entry p (alone picks) iA B tB = (Returns (ErrorTypeNone, None), iB) /\
    send_entry p (alone picks) iB C tC = (Returns (ErrorTypeNone, None), iC) /\
    send_entry p (alone picks) iC D tD = (Returns (ErrorTypeNone, None), iD) /\
    queue iD = [C; D] /\
    Receive pick1 iD r1 = (Returns (Some (response_of C), ErrorTypeNone, None), i1) /\
    Receive pick2 i1 r2 = (Returns (Some (response_of D), ErrorTypeNone, None), i2).

(** The error kind of a reply. *)
Definition receive_kind (r : receive_result) : option ErrorType :=
  match fst r with Returns (_, k, _) => Some k | _ => None end.
Definition send_kind (r : send_result) : option ErrorType :=
  match fst r with Returns (k, _) => Some k | _ => None end.

(** The timeout of a read and the timeout of a blocking write are
    different kinds of error. *)
Definition distinct_timeout_kinds (pick : nat) (i_empty : InMemoryStreamImpl) (r : Z)
    (p : Process) (env : Env) (i_full : InMemoryStreamImpl) (e : StreamEntry) (t : Z) : Prop :=
  receive_kind (Receive pick i_empty r) <> send_kind (send_entry p env i_full e t).

(** Concrete streams and entries for the examples. *)
Definition entryA : StreamEntry := mkEntry 1 "A"%string 10.
Definition entryB : StreamEntry := mkEntry 2 "B"%string 20.
Definition entryC : StreamEntry := mkEntry 3 "C"%string 30.
Definition entryD : StreamEntry := mkEntry 4 "D"%string 40.

Definition fresh (size : Z) : InMemoryStreamImpl :=
  mkStream (Chan.mk [] size false) false size false.

Definition first_ready : Z -> nat := fun _ => 0%nat.

Definition fullA : InMemoryStreamImpl := with_queue (fresh 1) [entryA].
Definition queuedAB : InMemoryStreamImpl := with_queue (fresh 2) [entryA; entryB].
Definition stoppedAB : InMemoryStreamImpl := snd (Stop queuedAB).
Definition probes : list call :=
  [CallSend initialProcess (alone first_ready) "C"%string 3 30 0;
   CallReceive 0 30;
   CallStop;
   CallSend initialProcess (alone first_ready) "D"%string 4 40 5].

Definition burst : list call :=
  [CallSend initialProcess (alone first_ready) "A"%string 1 10 0;
   CallSend initialProcess (alone first_ready) "B"%string 2 20 7;
   CallSend initialProcess (alone first_ready) "C"%string 3 30 0;
   CallSend initialProcess (alone first_ready) "D"%string 4 40 7;
   CallReceive 0 30;
   CallSend initialProcess (alone first_ready) "A"%string 1 10 0;
   CallStop].

(** Another goroutine that takes the freed slot at every turn, with B. *)
Definition crowded : Env := mkEnv first_ready (fun _ => Some entryB).

(** ** Vocabulary of the further properties *)

(** [subseq l1 l2]: [l1] is [l2] with some elements left out, the others
    in their order. *)
Inductive subseq {A : Type} : list A -> list A -> Prop :=
| subseq_nil : subseq [] []
| subseq_skip (x : A) (l1 l2 : list A) : subseq l1 l2 -> subseq l1 (x :: l2)
| subseq_take (x : A) (l1 l2 : list A) : subseq l1 l2 -> subseq (x :: l1) (x :: l2).

Definition entry_of (r : InternalReceiveResponse) : StreamEntry :=
  mkEntry (OutputUuid r) (RespOutput r) (RespTimestamp r).

(** The entry that a call hands to the stream, and the entry that a reply
    hands back. *)
Definition sent_by (c : call) : list StreamEntry :=
  match c with
  | CallSend _ _ output outputUuid timestamp _ => [mkEntry outputUuid output timestamp]
  | _ => []
  end.

Definition received_by (r : reply) : list StreamEntry :=
  match r with
  | ReceiveReply (Returns (Some resp, _, _)) => [entry_of resp]
  | _ => []
  end.

Definition sent_of (cs : list call) : list StreamEntry := flat_map sent_by cs.
Definition received_of (rs : list reply) : list StreamEntry := flat_map received_by rs.

(** A call during which no other goroutine touches the stream. *)
Definition quiet (c : call) : Prop :=
  match c with
  | CallSend _ env _ _ _ _ => forall k, intruder env k = None
  | _ => True
  end.

(** A reply that is a return: no panic, no wait without end, fuel left. *)
Definition returned (r : reply) : bool :=
  match r with
  | SendReply (Returns _) | ReceiveReply (Returns _) | StopReply (Returns _) => true
  | _ => false
  end.

(** The send of entry [e] as a call. *)
Definition send_call (p : Process) (env : Env) (t : Z) (e : StreamEntry) : call :=
  CallSend p env (Output e) (OutputUUID e) (Timestamp e) t.

(** The last [cap] elements of a list, all of it when it is shorter. *)
Definition newest (cap : Z) (l : list StreamEntry) : list StreamEntry :=
  skipn (length l - Z.to_nat cap) l.

(** Room left in the stream, in entries. *)
Definition room (i : InMemoryStreamImpl) : nat :=
  Z.to_nat (capacity i - Chan.len (outputs i)).

Definition send_ok : reply := SendReply (Returns (ErrorTypeNone, None)).
Definition send_timed_out : reply :=
  SendReply (Returns (ErrorTypeWaitingTimeout, Some ErrSpaceTimeout)).

(** A stream of capacity 3 holding A and B, and one of capacity 2 holding
    A and B. *)
Definition roomyAB : InMemoryStreamImpl := with_queue (fresh 3) [entryA; entryB].

(** Another sender that takes the freed slot at the first two turns and
    then stays away. *)
Definition twice : Env :=
  mkEnv first_ready (fun k => if k <=? 2 then Some entryB else None).

Definition mixed : list call :=
  [send_call initialProcess (alone first_ready) 0 entryA;
   send_call initialProcess (alone first_ready) 4 entryB;
   CallReceive 0 30;
   send_call initialProcess (alone first_ready) 0 entryC;
   send_call initialProcess (alone first_ready) 0 entryD;
   CallReceive 1 0;
   CallReceive 0 30;
   CallStop;
   CallReceive 0 30].

(** * Properties *)

(** ** Durations and select *)

Lemma wrap64_small (z : Z) : - 2 ^ 63 <= z < 2 ^ 63 -> wrap64 z = z.
Proof.
  intros H. unfold wrap64.
  rewrite Z.mod_small by lia. lia.
Qed.

Lemma wrap64_one : wrap64 1 = 1.
Proof. reflexivity. Qed.

Lemma wrap64_le_max (z : Z) : wrap64 z <= MaxInt64.
Proof.
  unfold wrap64, MaxInt64.
  pose proof (Z.mod_pos_bound (z + 2 ^ 63) (2 ^ 64) ltac:(lia)). lia.
Qed.

Lemma window_open (t : Z) : window t -> expired (Duration t) = false.
Proof.
  unfold window, expired, Duration, Second. intros H.
  rewrite wrap64_small by lia.
  apply Z.leb_gt. lia.
Qed.

Lemma selectgo_none (pick : nat) : selectgo pick [] = None.
Proof. unfold selectgo. simpl. now destruct pick. Qed.

Lemma selectgo_only (pick : nat) (a : arm) : selectgo pick [a] = Some a.
Proof. unfold selectgo. simpl length. now rewrite Nat.mod_1_r. Qed.

Lemma selectgo_In (pick : nat) (ready : list arm) (a : arm) :
  selectgo pick ready = Some a -> In a ready.
Proof. unfold selectgo. apply nth_error_In. Qed.

Lemma poll_In (arms : list (arm * bool)) (a : arm) :
  In a (poll arms) -> In (a, true) arms.
Proof.
  unfold poll. rewrite in_map_iff. intros [[a' b] [E H]].
  apply filter_In in H. simpl in *. destruct H as [H Hb]. now subst.
Qed.

(** ** Streams in good order *)

Ltac open_stream i :=
  let q := fresh "q" in let c := fresh "c" in let cl := fresh "cl" in
  let st := fresh "st" in let n := fresh "n" in let sc := fresh "sc" in
  destruct i as [[q c cl] st n sc];
  unfold wf, is_empty, is_full, queue, Chan.len in *; simpl in *.

Lemma fresh_wf (size : Z) : 0 <= size -> wf (fresh size).
Proof. intros H. unfold wf, fresh, Chan.len. simpl. lia. Qed.

Lemma New_fresh (size : Z) (i : InMemoryStreamImpl) :
  NewInMemoryStreamImpl size = Returns i -> i = fresh size /\ 0 <= size.
Proof.
  unfold NewInMemoryStreamImpl, Chan.make.
  destruct (size <? 0) eqn:E; [discriminate|].
  intros H. injection H as <-. split; [reflexivity|]. apply Z.ltb_ge in E. lia.
Qed.

(** The first timeout, in seconds, whose duration wraps around. *)
Lemma duration_wraps : Duration 9223372036 = 9223372036000000000 /\
                       Duration 9223372037 = -9223372036709551616.
Proof. split; reflexivity. Qed.

(** ** One call at a time *)

Lemma circular_room (p : Process) (env : Env) (i : InMemoryStreamImpl) (e : StreamEntry) :
  wf i -> stopped i = false -> Chan.len (outputs i) < capacity i ->
  sendCircularBufferWithChannel p env i e
    = (Returns (ErrorTypeNone, None), with_queue i (queue i ++ [e])).
Proof.
  intros W S L. open_stream i. destruct W as (-> & -> & -> & _). subst st.
  unfold sendCircularBufferWithChannel, Chan.can_send, Chan.len. simpl.
  assert (E0 : (n =? 0) = false) by (apply Z.eqb_neq; lia).
  assert (E1 : (Z.of_nat (length q) <? n) = true) by (apply Z.ltb_lt; lia).
  rewrite E0, E1. unfold poll. simpl. rewrite ?selectgo_only. reflexivity.
Qed.

Lemma blocking_room (env : Env) (i : InMemoryStreamImpl) (e : StreamEntry) (t : Z) :
  wf i -> stopped i = false -> Chan.len (outputs i) < capacity i -> window t ->
  sendBlockingQueueWithChannel env i e t
    = (Returns (ErrorTypeNone, None), with_queue i (queue i ++ [e])).
Proof.
  intros W S L T. open_stream i. destruct W as (-> & -> & -> & _). subst st.
  unfold sendBlockingQueueWithChannel, Chan.can_send, Chan.len. simpl.
  assert (E1 : (Z.of_nat (length q) <? n) = true) by (apply Z.ltb_lt; lia).
  rewrite E1, (window_open _ T). unfold poll. simpl. rewrite ?selectgo_only. reflexivity.
Qed.

Lemma blocking_full (env : Env) (i : InMemoryStreamImpl) (e : StreamEntry) (t : Z) :
  wf i -> stopped i = false -> is_full i ->
  sendBlockingQueueWithChannel env i e t
    = (Returns (ErrorTypeWaitingTimeout, Some ErrSpaceTimeout), i).
Proof.
  intros W S F. open_stream i. destruct W as (-> & -> & -> & _). subst st.
  unfold sendBlockingQueueWithChannel, Chan.can_send, Chan.len. simpl.
  assert (E1 : (Z.of_nat (length q) <? n) = false) by (apply Z.ltb_ge; lia).
  rewrite E1. unfold poll. simpl.
  destruct (expired (Duration t)); simpl.
  - now rewrite ?selectgo_only.
  - now rewrite ?selectgo_none.
Qed.

Lemma circular_full_alone (p : Process) (env : Env) (i : InMemoryStreamImpl) (e : StreamEntry) :
  wf i -> stopped i = false -> is_full i -> 1 <= capacity i ->
  1 <= circularBufferMaxIterations p -> intruder env 1 = None ->
  sendCircularBufferWithChannel p env i e
    = (Returns (ErrorTypeNone, None), with_queue i (tl (queue i) ++ [e])).
Proof.
  intros W S F C M Q. open_stream i. destruct W as (-> & -> & -> & _). subst st.
  unfold sendCircularBufferWithChannel, Chan.can_send, Chan.len. simpl.
  assert (E0 : (n =? 0) = false) by (apply Z.eqb_neq; lia).
  assert (E1 : (Z.of_nat (length q) <? n) = false) by (apply Z.ltb_ge; lia).
  rewrite E0, E1. unfold poll at 1. simpl filter. simpl map. rewrite ?selectgo_none.
  assert (E2 : (circularBufferMaxIterations p <? 1) = false) by (apply Z.ltb_ge; lia).
  cbn [overwrite_loop]. rewrite !wrap64_one, E2, Q.
  destruct q as [|x rest]; [simpl in F; lia|].
  unfold Chan.recv, Chan.barge, Chan.can_send, Chan.len. simpl in *.
  assert (E3 : (Z.of_nat (length rest) <? n) = true) by (apply Z.ltb_lt; lia).
  rewrite E3. unfold poll. simpl. rewrite ?selectgo_only. reflexivity.
Qed.

Lemma receive_head (pick : nat) (i : InMemoryStreamImpl) (t : Z)
    (x : StreamEntry) (rest : list StreamEntry) :
  wf i -> stopped i = false -> queue i = x :: rest -> window t ->
  Receive pick i t
    = (Returns (Some (response_of x), ErrorTypeNone, None), with_queue i rest).
Proof.
  intros W S Q T. open_stream i. destruct W as (-> & -> & -> & _). subst st q.
  unfold Receive, Chan.can_recv. simpl.
  rewrite (window_open _ T). unfold poll. simpl. rewrite ?selectgo_only. reflexivity.
Qed.

Lemma receive_empty (pick : nat) (i : InMemoryStreamImpl) (t : Z) :
  wf i -> stopped i = false -> is_empty i ->
  Receive pick i t = (Returns (None, ErrorTypeWaitingTimeout, None), i).
Proof.
  intros W S Q. open_stream i. destruct W as (-> & -> & -> & _). subst st q.
  unfold Receive, Chan.can_recv. simpl. unfold poll. simpl.
  destruct (expired (Duration t)); simpl.
  - now rewrite ?selectgo_only.
  - now rewrite ?selectgo_none.
Qed.

(** ** What every call preserves *)

Lemma same_frame_refl (i : InMemoryStreamImpl) : same_frame i i.
Proof. unfold same_frame. tauto. Qed.

Lemma same_frame_trans (i j k : InMemoryStreamImpl) :
  same_frame i j -> same_frame j k -> same_frame i k.
Proof. unfold same_frame. intuition congruence. Qed.

Lemma wf_frame (i i' : InMemoryStreamImpl) :
  wf i -> same_frame i i' -> fits i' -> wf i'.
Proof.
  unfold wf, same_frame, fits. intros (A & B & C & D) (E & F & G & H & I) J.
  repeat split; congruence.
Qed.

Lemma wf_fits (i : InMemoryStreamImpl) : wf i -> fits i.
Proof. unfold wf, fits. intros (_ & _ & -> & H). exact H. Qed.

Lemma do_send_keeps (i : InMemoryStreamImpl) (e : StreamEntry) :
  Chan.can_send (outputs i) = true -> fits i ->
  same_frame i (snd (do_send i e)) /\ fits (snd (do_send i e)).
Proof.
  intros R F. unfold do_send, Chan.send.
  destruct i as [[q c cl] st n sc].
  unfold Chan.can_send, fits, same_frame, Chan.len in *. simpl in *.
  destruct cl; simpl in *.
  - repeat split; trivial.
  - apply Z.ltb_lt in R. rewrite length_app, Nat2Z.inj_add. simpl.
    repeat split; trivial. lia.
Qed.

Lemma recv_barge_keeps (i : InMemoryStreamImpl) (x : StreamEntry)
    (c : Chan.t StreamEntry) (a : option StreamEntry) :
  fits i -> Chan.recv zeroEntry (outputs i) = Returns (x, c) ->
  same_frame i (with_outputs i (Chan.barge c a)) /\
  fits (with_outputs i (Chan.barge c a)).
Proof.
  intros F R. destruct i as [[q n cl] st k sc].
  unfold fits, same_frame, Chan.recv, Chan.barge, Chan.len in *. simpl in *.
  assert (K : Chan.cap c = n /\ Chan.closed c = cl /\
              Z.of_nat (length (Chan.buf c)) <= n).
  { destruct q as [|y rest]; simpl in *.
    - destruct cl; [|discriminate]. injection R as _ <-. simpl. repeat split; lia.
    - injection R as _ <-. simpl. repeat split; lia. }
  destruct K as (K1 & K2 & K3).
  destruct a as [v|]; simpl; [|repeat split; solve [assumption | lia]].
  destruct (negb (Chan.closed c) && (Z.of_nat (length (Chan.buf c)) <? Chan.cap c)) eqn:E;
    simpl; [|repeat split; solve [assumption | lia]].
  apply andb_prop in E. destruct E as [_ E]. apply Z.ltb_lt in E.
  rewrite length_app, Nat2Z.inj_add. simpl. repeat split; solve [assumption | lia].
Qed.

Lemma selected_send (pk : nat) (i : InMemoryStreamImpl) (rest : list (arm * bool)) :
  selectgo pk (poll ((SendArm, Chan.can_send (outputs i)) :: rest)) = Some SendArm ->
  ~ In (SendArm, true) rest ->
  Chan.can_send (outputs i) = true.
Proof.
  intros H N. apply selectgo_In, poll_In in H. destruct H as [H|H].
  - now injection H.
  - contradiction.
Qed.

Lemma overwrite_loop_keeps (fuel : nat) (max : Z) (env : Env) :
  forall (k : Z) (i : InMemoryStreamImpl) (e : StreamEntry),
  fits i ->
  same_frame i (snd (overwrite_loop fuel max env k i e)) /\
  fits (snd (overwrite_loop fuel max env k i e)).
Proof.
  induction fuel as [|fuel IH]; intros k i e F; simpl.
  - split; [apply same_frame_refl | exact F].
  - set (k1 := wrap64 (k + 1)).
    destruct (max <? k1); simpl; [split; [apply same_frame_refl | exact F]|].
    destruct (Chan.recv zeroEntry (outputs i)) as [[x c]| | |] eqn:R; simpl;
      try (split; [apply same_frame_refl | exact F]).
    destruct (recv_barge_keeps i x c (intruder env k1) F R) as [SF F'].
    set (j := with_outputs i (Chan.barge c (intruder env k1))) in *.
    change (stopCh_closed i) with (stopCh_closed j).
    destruct (selectgo _ _) as [[| | |]|] eqn:S.
    + assert (RS : Chan.can_send (outputs j) = true).
      { eapply selected_send; [exact S|]. simpl. intros [H|[]]. discriminate. }
      destruct (do_send_keeps j e RS F') as [SF' F''].
      split; [eapply same_frame_trans; eassumption | exact F''].
    + destruct (IH k1 j e F') as [SF' F''].
      split; [eapply same_frame_trans; eassumption | exact F''].
    + simpl. split; assumption.
    + destruct (IH k1 j e F') as [SF' F''].
      split; [eapply same_frame_trans; eassumption | exact F''].
    + destruct (IH k1 j e F') as [SF' F''].
      split; [eapply same_frame_trans; eassumption | exact F''].
Qed.

Lemma Send_keeps (p : Process) (env : Env) (i : InMemoryStreamImpl)
    (o : OutputType) (u : UUID) (ts : Time) (t : Z) :
  fits i ->
  same_frame i (snd (Send p env i o u ts t)) /\ fits (snd (Send p env i o u ts t)).
Proof.
  intros F. pose proof (same_frame_refl i) as R.
  unfold Send. destruct (stopped i) eqn:S; simpl; [tauto|].
  destruct (t <=? 0).
  - unfold sendCircularBufferWithChannel.
    destruct (capacity i =? 0); [simpl; tauto|].
    destruct (selectgo _ _) as [[| | |]|] eqn:E;
      try (rewrite S; cbv beta iota zeta; apply overwrite_loop_keeps; exact F);
      [|unfold stream_stopped; simpl; tauto].
    apply do_send_keeps; [|exact F].
    eapply selected_send; [exact E|]. simpl. intros [H|[]]. discriminate.
  - unfold sendBlockingQueueWithChannel.
    destruct (selectgo _ _) as [[| | |]|] eqn:E; unfold stream_stopped; simpl; try tauto.
    apply do_send_keeps; [|exact F].
    eapply selected_send; [exact E|]. simpl. intros [H|[H|[]]]; discriminate.
Qed.

Lemma Receive_keeps (pk : nat) (i : InMemoryStreamImpl) (t : Z) :
  fits i ->
  same_frame i (snd (Receive pk i t)) /\ fits (snd (Receive pk i t)).
Proof.
  intros F. pose proof (same_frame_refl i) as R.
  unfold Receive. destruct (stopped i); simpl; [tauto|].
  destruct (selectgo _ _) as [[| | |]|]; simpl; try tauto.
  destruct (Chan.recv zeroEntry (outputs i)) as [[x c]| | |] eqn:E; simpl; try tauto.
  exact (recv_barge_keeps i x c None F E).
Qed.

Lemma Send_wf (p : Process) (env : Env) (i : InMemoryStreamImpl)
    (o : OutputType) (u : UUID) (ts : Time) (t : Z) :
  wf i -> wf (snd (Send p env i o u ts t)).
Proof.
  intros W. destruct (Send_keeps p env i o u ts t (wf_fits i W)).
  eapply wf_frame; eassumption.
Qed.

Lemma Receive_wf (pk : nat) (i : InMemoryStreamImpl) (t : Z) :
  wf i -> wf (snd (Receive pk i t)).
Proof.
  intros W. destruct (Receive_keeps pk i t (wf_fits i W)).
  eapply wf_frame; eassumption.
Qed.

(** On a stream in good order [Stop] returns [nil] and leaves it stopped,
    with the queue as it was. *)
Lemma Stop_returns (i : InMemoryStreamImpl) :
  wf i ->
  fst (Stop i) = Returns None /\ wf (snd (Stop i)) /\
  stopped (snd (Stop i)) = true /\ queue (snd (Stop i)) = queue i.
Proof.
  intros W. open_stream i. destruct W as (-> & -> & -> & L).
  unfold Stop, Chan.close. simpl. destruct st; simpl; repeat split; trivial.
Qed.

Lemma step_wf (i : InMemoryStreamImpl) (c : call) : wf i -> wf (snd (step i c)).
Proof.
  intros W. destruct c as [p env o u ts t|pk t|]; simpl.
  - pose proof (Send_wf p env i o u ts t W). now destruct (Send p env i o u ts t).
  - pose proof (Receive_wf pk i t W). now destruct (Receive pk i t).
  - pose proof (Stop_returns i W) as (_ & H & _). now destruct (Stop i).
Qed.

Lemma run_wf (cs : list call) : forall i, wf i -> wf (snd (run i cs)).
Proof.
  induction cs as [|c cs IH]; intros i W; simpl; [exact W|].
  pose proof (step_wf i c W) as W1. destruct (step i c) as [r i1]. simpl in W1.
  pose proof (IH i1 W1) as W2. destruct (run i1 cs) as [rs i2]. exact W2.
Qed.

Lemma reachable_wf (size : Z) (i : InMemoryStreamImpl) (cs : list call) :
  NewInMemoryStreamImpl size = Returns i -> wf (snd (run i cs)).
Proof.
  intros N. apply New_fresh in N. destruct N as [-> P].
  apply run_wf, fresh_wf, P.
Qed.

(** ** Queues after a call *)

Lemma entry_eta (e : StreamEntry) :
  mkEntry (OutputUUID e) (Output e) (Timestamp e) = e.
Proof. now destruct e. Qed.

Lemma with_queue_wf (i : InMemoryStreamImpl) (q : list StreamEntry) :
  wf i -> Z.of_nat (length q) <= capacity i -> wf (with_queue i q).
Proof. intros W L. open_stream i. tauto. Qed.

Lemma with_queue_queue (i : InMemoryStreamImpl) (q : list StreamEntry) :
  queue (with_queue i q) = q.
Proof. reflexivity. Qed.

Lemma with_queue_stopped (i : InMemoryStreamImpl) (q : list StreamEntry) :
  stopped (with_queue i q) = stopped i.
Proof. reflexivity. Qed.

Lemma with_queue_capacity (i : InMemoryStreamImpl) (q : list StreamEntry) :
  capacity (with_queue i q) = capacity i.
Proof. reflexivity. Qed.

Lemma overwritten_length (cap : Z) (q : list StreamEntry) (e : StreamEntry) :
  1 <= cap -> Z.of_nat (length q) <= cap ->
  Z.of_nat (length (overwritten cap q e)) <= cap.
Proof.
  intros C L. unfold overwritten.
  destruct (Z.of_nat (length q) <? cap) eqn:E; rewrite length_app; simpl.
  - apply Z.ltb_lt in E. lia.
  - destruct q; simpl in *; lia.
Qed.

(** A send in circular mode with nobody else around and at least one
    retry allowed: the entry goes in, at the price of the oldest one when
    the stream is full. *)
Lemma circular_send_alone (p : Process) (picks : Z -> nat) (i : InMemoryStreamImpl)
    (e : StreamEntry) (t : Z) :
  wf i -> stopped i = false -> 1 <= capacity i ->
  1 <= circularBufferMaxIterations p -> t <= 0 ->
  send_entry p (alone picks) i e t
    = (Returns (ErrorTypeNone, None),
       with_queue i (overwritten (capacity i) (queue i) e)).
Proof.
  intros W S C M T. unfold send_entry, Send. rewrite S, entry_eta.
  apply Z.leb_le in T. rewrite T. unfold overwritten.
  destruct (Z.of_nat (length (queue i)) <? capacity i) eqn:E.
  - apply circular_room; trivial. apply Z.ltb_lt in E. exact E.
  - apply circular_full_alone; trivial.
    apply Z.ltb_ge in E. destruct W as (_ & _ & _ & L).
    unfold is_full, queue, Chan.len in *. lia.
Qed.

(** ** The claims *)

(** C1, as amended.  On an empty stream that is not stopped and has room
    for at least one entry, a send in circular mode, or in blocking mode
    with a timeout of at most 9223372036 seconds, returns [ErrorTypeNone],
    and a receive that follows with a timeout between 1 and 9223372036
    seconds returns that very entry: same uuid, same payload, same
    timestamp, with [ErrorTypeNone] and a nil error. *)
Theorem round_trip_within_window (p : Process) (env : Env) (i : InMemoryStreamImpl)
    (e : StreamEntry) (blockingWriteTimeoutSeconds : Z)
    (pick : nat) (receiveTimeoutSeconds : Z) :
  wf i -> stopped i = false -> 1 <= capacity i -> is_empty i ->
  blockingWriteTimeoutSeconds <= 9223372036 ->
  window receiveTimeoutSeconds ->
  round_trip p env i e blockingWriteTimeoutSeconds pick receiveTimeoutSeconds.
Proof.
  intros W S C Q B R. unfold round_trip.
  exists (with_queue i (queue i ++ [e])), (with_queue i []).
  assert (L : Chan.len (outputs i) < capacity i).
  { unfold is_empty, queue, Chan.len in *. rewrite Q. simpl. lia. }
  split.
  - unfold Send. rewrite S, entry_eta.
    destruct (blockingWriteTimeoutSeconds <=? 0) eqn:E.
    + now apply circular_room.
    + apply blocking_room; trivial. apply Z.leb_gt in E. unfold window. lia.
  - unfold is_empty in Q. rewrite Q. simpl app.
    assert (W1 : wf (with_queue i [e])) by (apply with_queue_wf; simpl; trivial; lia).
    rewrite (receive_head pick (with_queue i [e]) receiveTimeoutSeconds e [] W1 S eq_refl R).
    reflexivity.
Qed.

(** The round trip on a fresh stream of capacity 1, with a write in
    circular mode and a read that waits 30 seconds. *)
Lemma round_trip_within_window_witness :
  round_trip initialProcess (alone first_ready) (fresh 1) entryA 0 0 30.
Proof.
  apply round_trip_within_window.
  - apply fresh_wf. lia.
  - reflexivity.
  - simpl. lia.
  - reflexivity.
  - lia.
  - unfold window. lia.
Defined.

(** A blocking send whose timeout is large enough for its duration to
    wrap around meets the same expired timer: it may come back with
    [ErrorTypeWaitingTimeout] from an empty stream. *)
Lemma blocking_send_wrapped_timeout :
  send_entry initialProcess (alone (fun _ => 1%nat)) (fresh 1) entryA 9223372037
    = (Returns (ErrorTypeWaitingTimeout, Some ErrSpaceTimeout), fresh 1).
Proof. reflexivity. Qed.

(** C1 as stated fails for a receive whose timeout is zero: the timer of
    [time.After(0)] has expired when the [select] of [Receive] polls its
    arms, so the queued entry and the timer can both proceed, and the
    choice among them may fall on the timer.  The entry stays queued and
    the caller gets [ErrorTypeWaitingTimeout]. *)
Lemma round_trip_zero_timeout :
  (exists i1,
     send_entry initialProcess (alone first_ready) (fresh 1) entryA 0
       = (Returns (ErrorTypeNone, None), i1) /\
     queue i1 = [entryA] /\
     Receive 1 i1 0 = (Returns (None, ErrorTypeWaitingTimeout, None), i1)) /\
  ~ round_trip initialProcess (alone first_ready) (fresh 1) entryA 0 1 0.
Proof.
  split.
  - eexists. repeat split.
  - intros (i1 & i2 & H1 & H2). vm_compute in H1.
    injection H1 as <-. vm_compute in H2. discriminate H2.
Qed.

Lemma with_queue_again (i : InMemoryStreamImpl) (q q' : list StreamEntry) :
  with_queue (with_queue i q) q' = with_queue i q'.
Proof. reflexivity. Qed.

Lemma four_overwrites (q : list StreamEntry) (A B C D : StreamEntry) :
  Z.of_nat (length q) <= 2 ->
  overwritten 2 (overwritten 2 (overwritten 2 (overwritten 2 q A) B) C) D = [C; D].
Proof.
  intros L. destruct q as [|x [|y [|z r]]]; try reflexivity.
  simpl length in L. lia.
Qed.

(** C2, as amended.  On a stream of capacity 2 that is not stopped, with
    the iteration cap at 1 or more (it is 100 unless changed) and nobody
    else at the stream, four sends in circular mode of A, B, C, D all
    return [ErrorTypeNone]; each send that finds the stream full drops the
    oldest entry and enqueues its own, so that C and D are what is queued;
    two receives that follow, each with a timeout between 1 and
    9223372036 seconds, return C and then D. *)
Theorem circular_overflow_keeps_newest (p : Process) (picks : Z -> nat)
    (i : InMemoryStreamImpl) (A B C D : StreamEntry) (tA tB tC tD : Z)
    (pick1 pick2 : nat) (r1 r2 : Z) :
  wf i -> stopped i = false -> capacity i = 2 ->
  1 <= circularBufferMaxIterations p ->
  tA <= 0 -> tB <= 0 -> tC <= 0 -> tD <= 0 ->
  window r1 -> window r2 ->
  circular_overflow p picks i A B C D tA tB tC tD pick1 pick2 r1 r2.
Proof.
  intros W S K M TA TB TC TD R1 R2.
  assert (L : Z.of_nat (length (queue i)) <= 2).
  { destruct W as (_ & _ & _ & L). unfold queue, Chan.len in *. lia. }
  assert (K1 : 1 <= capacity i) by lia.
  assert (step_ok : forall q e t, Z.of_nat (length q) <= 2 -> t <= 0 ->
            send_entry p (alone picks) (with_queue i q) e t
              = (Returns (ErrorTypeNone, None), with_queue i (overwritten 2 q e))).
  { intros q e t Lq T.
    rewrite (circular_send_alone p picks (with_queue i q) e t); trivial.
    - now rewrite with_queue_again, with_queue_capacity, with_queue_queue, K.
    - apply with_queue_wf; trivial; lia. }
  assert (len_ok : forall q e, Z.of_nat (length q) <= 2 ->
            Z.of_nat (length (overwritten 2 q e)) <= 2).
  { intros q e Lq. apply overwritten_length; lia. }
  assert (I0 : i = with_queue i (queue i)) by (now destruct i as [[? ? ?] ? ? ?]).
  set (qA := overwritten 2 (queue i) A).
  set (qB := overwritten 2 qA B).
  set (qC := overwritten 2 qB C).
  unfold circular_overflow.
  exists (with_queue i qA), (with_queue i qB), (with_queue i qC),
         (with_queue i [C; D]), (with_queue i [D]), (with_queue i []).
  assert (QD : overwritten 2 qC D = [C; D]) by (now apply four_overwrites).
  repeat split.
  - rewrite I0 at 1. now apply step_ok.
  - apply step_ok; trivial. now apply len_ok.
  - apply step_ok; trivial. now apply len_ok, len_ok.
  - rewrite <- QD. apply step_ok; trivial. now apply len_ok, len_ok, len_ok.
  - rewrite (receive_head pick1 (with_queue i [C; D]) r1 C [D]); trivial.
    apply with_queue_wf; trivial; simpl; lia.
  - rewrite (receive_head pick2 (with_queue i [D]) r2 D []); trivial.
    apply with_queue_wf; trivial; simpl; lia.
Qed.

(** The seed scenario of the spec: a new stream of capacity 2, the default
    cap of 100, reads that wait 30 seconds. *)
Lemma circular_overflow_keeps_newest_witness :
  circular_overflow initialProcess first_ready (fresh 2)
    entryA entryB entryC entryD 0 0 0 0 0 0 30 30.
Proof.
  apply circular_overflow_keeps_newest.
  - apply fresh_wf. lia.
  - reflexivity.
  - reflexivity.
  - simpl. lia.
  - lia.
  - lia.
  - lia.
  - lia.
  - unfold window. lia.
  - unfold window. lia.
Defined.

(** C2 as stated fails when the first of the two receives has a timeout of
    zero: C and D are queued, yet the expired timer can be the arm that the
    [select] of [Receive] takes, and the receive returns no entry. *)
Lemma circular_overflow_zero_timeout :
  ~ circular_overflow initialProcess first_ready (fresh 2)
      entryA entryB entryC entryD 0 0 0 0 1 0 0 30.
Proof.
  intros (iA & iB & iC & iD & i1 & i2 & HA & HB & HC & HD & _ & H1 & _).
  vm_compute in HA. injection HA as <-.
  vm_compute in HB. injection HB as <-.
  vm_compute in HC. injection HC as <-.
  vm_compute in HD. injection HD as <-.
  vm_compute in H1. discriminate H1.
Qed.

Lemma step_stopped (i : InMemoryStreamImpl) (c : call) :
  stopped i = true -> step i c = (stopped_reply c, i).
Proof.
  intros S. destruct c; simpl; unfold Send, Receive, Stop, stream_stopped;
    now rewrite S.
Qed.

Lemma run_stopped (cs : list call) (i : InMemoryStreamImpl) :
  stopped i = true -> run i cs = (map stopped_reply cs, i).
Proof.
  intros S. induction cs as [|c cs IH]; simpl; [reflexivity|].
  now rewrite (step_stopped i c S), IH.
Qed.

Lemma stopped_reply_not_ok (c : call) : is_ok (stopped_reply c) = false.
Proof. now destruct c. Qed.

Lemma Stop_sets_flag (i : InMemoryStreamImpl) : stopped (snd (Stop i)) = true.
Proof.
  unfold Stop. destruct (stopped i) eqn:S; simpl; [exact S|].
  destruct (stopCh_closed i); simpl; [reflexivity|].
  now destruct (Chan.close (outputs i)).
Qed.

(** C3.  Once [Stop] has returned, whatever is called on the stream, in
    whatever number and order, every send gets [ErrorTypeStreamStopped]
    with [ErrStreamStopped], every receive gets no entry with the same
    kind and error, none of the replies is [ErrorTypeNone], and the stream,
    its queue included, stays exactly as [Stop] left it: nothing is
    enqueued and nothing dequeued, whatever was queued at the time. *)
Theorem no_success_after_Stop (i i1 : InMemoryStreamImpl) (cs : list call) :
  Stop i = (Returns None, i1) ->
  run i1 cs = (map stopped_reply cs, i1) /\
  queue (snd (run i1 cs)) = queue i1 /\
  forall r, In r (fst (run i1 cs)) -> is_ok r = false.
Proof.
  intros H.
  assert (S : stopped i1 = true).
  { pose proof (Stop_sets_flag i) as F. now rewrite H in F. }
  rewrite (run_stopped cs i1 S). simpl. repeat split.
  intros r R. apply in_map_iff in R. destruct R as (c & <- & _).
  apply stopped_reply_not_ok.
Qed.

(** A stream stopped with A and B still queued: a send, a receive and a
    second stop all find it stopped and leave A and B where they are. *)
Lemma no_success_after_Stop_witness :
  run stoppedAB probes = (map stopped_reply probes, stoppedAB) /\
  queue (snd (run stoppedAB probes)) = queue stoppedAB /\
  forall r, In r (fst (run stoppedAB probes)) -> is_ok r = false.
Proof.
  apply (no_success_after_Stop queuedAB stoppedAB probes). reflexivity.
Defined.

(** C4.  On a stream of capacity 0 that is not stopped, a send in circular
    mode is turned down with [ErrorTypeInvalidRequest], and the stream is
    left as it was. *)
Theorem zero_capacity_circular_rejected (p : Process) (env : Env)
    (i : InMemoryStreamImpl) (o : OutputType) (u : UUID) (ts : Time) (t : Z) :
  stopped i = false -> capacity i = 0 -> t <= 0 ->
  Send p env i o u ts t = (Returns (ErrorTypeInvalidRequest, Some ErrZeroCapacity), i).
Proof.
  intros S C T. unfold Send, sendCircularBufferWithChannel.
  apply Z.leb_le in T. now rewrite S, T, C.
Qed.

Lemma zero_capacity_circular_rejected_witness :
  Send initialProcess (alone first_ready) (fresh 0) "A"%string 1 10 0
    = (Returns (ErrorTypeInvalidRequest, Some ErrZeroCapacity), fresh 0).
Proof.
  apply zero_capacity_circular_rejected.
  - reflexivity.
  - reflexivity.
  - lia.
Defined.

(** C5.  Which discipline a send follows is decided by the timeout of that
    very call and by nothing kept in the stream: at 0 or below the call is
    the circular write, above 0 it is the blocking write.  So on one and
    the same stream a circular write can follow a blocking one and a
    blocking write a circular one. *)
Theorem discipline_chosen_per_call (p : Process) (env1 env2 : Env)
    (i : InMemoryStreamImpl) (e1 e2 : StreamEntry) (t1 t2 : Z) :
  wf i -> stopped i = false -> t1 <= 0 -> 0 < t2 ->
  send_entry p env1 i e1 t1 = sendCircularBufferWithChannel p env1 i e1 /\
  send_entry p env2 i e2 t2 = sendBlockingQueueWithChannel env2 i e2 t2 /\
  (let j := snd (send_entry p env1 i e1 t1) in
   send_entry p env2 j e2 t2 = sendBlockingQueueWithChannel env2 j e2 t2) /\
  (let j := snd (send_entry p env2 i e2 t2) in
   send_entry p env1 j e1 t1 = sendCircularBufferWithChannel p env1 j e1).
Proof.
  intros W S T1 T2.
  assert (D : forall env j e,
            stopped j = false ->
            send_entry p env j e t1 = sendCircularBufferWithChannel p env j e /\
            send_entry p env j e t2 = sendBlockingQueueWithChannel env j e t2).
  { intros env j e Sj. unfold send_entry, Send. rewrite Sj, entry_eta.
    apply Z.leb_le in T1. rewrite T1.
    apply Z.leb_gt in T2. rewrite T2. split; reflexivity. }
  assert (K : forall env e t, stopped (snd (send_entry p env i e t)) = false).
  { intros env e t.
    destruct (Send_keeps p env i (Output e) (OutputUUID e) (Timestamp e) t (wf_fits i W))
      as [(E & _) _].
    unfold send_entry. now rewrite E. }
  repeat split.
  - apply D, S.
  - apply D, S.
  - apply D, K.
  - apply D, K.
Qed.

Lemma discipline_chosen_per_call_witness :
  send_entry initialProcess (alone first_ready) fullA entryB 0
    = sendCircularBufferWithChannel initialProcess (alone first_ready) fullA entryB /\
  send_entry initialProcess (alone first_ready) fullA entryC 5
    = sendBlockingQueueWithChannel (alone first_ready) fullA entryC 5 /\
  (let j := snd (send_entry initialProcess (alone first_ready) fullA entryB 0) in
   send_entry initialProcess (alone first_ready) j entryC 5
     = sendBlockingQueueWithChannel (alone first_ready) j entryC 5) /\
  (let j := snd (send_entry initialProcess (alone first_ready) fullA entryC 5) in
   send_entry initialProcess (alone first_ready) j entryB 0
     = sendCircularBufferWithChannel initialProcess (alone first_ready) j entryB).
Proof.
  apply discipline_chosen_per_call.
  - apply with_queue_wf; [apply fresh_wf; lia | simpl; lia].
  - reflexivity.
  - lia.
  - lia.
Defined.

(** The two disciplines do differ: on a full stream the circular write
    goes through at the price of the oldest entry, the blocking write
    gives up and leaves the queue alone. *)
Lemma disciplines_differ_when_full (p : Process) (env : Env)
    (i : InMemoryStreamImpl) (e : StreamEntry) (t1 t2 : Z) :
  wf i -> stopped i = false -> is_full i -> 1 <= capacity i ->
  1 <= circularBufferMaxIterations p -> intruder env 1 = None ->
  t1 <= 0 -> 0 < t2 ->
  send_entry p env i e t1
    = (Returns (ErrorTypeNone, None), with_queue i (tl (queue i) ++ [e])) /\
  send_entry p env i e t2
    = (Returns (ErrorTypeWaitingTimeout, Some ErrSpaceTimeout), i).
Proof.
  intros W S F C M Q T1 T2. unfold send_entry, Send. rewrite S, entry_eta.
  apply Z.leb_le in T1. rewrite T1. apply Z.leb_gt in T2. rewrite T2. split.
  - now apply circular_full_alone.
  - now apply blocking_full.
Qed.

(** C7, as amended.  A receive on an empty stream that is not stopped
    finds no entry, whatever its timeout, and returns no response with
    [ErrorTypeWaitingTimeout] and a nil error; this is the very kind that a
    blocking send returns when it finds the stream full (there with an
    error that says so).  The engine has one timeout kind for both. *)
Theorem timeouts_share_one_kind (pick : nat) (i : InMemoryStreamImpl) (r : Z)
    (p : Process) (env : Env) (j : InMemoryStreamImpl) (e : StreamEntry) (t : Z) :
  wf i -> stopped i = false -> is_empty i ->
  wf j -> stopped j = false -> is_full j -> 0 < t ->
  Receive pick i r = (Returns (None, ErrorTypeWaitingTimeout, None), i) /\
  send_entry p env j e t = (Returns (ErrorTypeWaitingTimeout, Some ErrSpaceTimeout), j) /\
  receive_kind (Receive pick i r) = send_kind (send_entry p env j e t).
Proof.
  intros Wi Si Qi Wj Sj Fj T.
  assert (R : Receive pick i r = (Returns (None, ErrorTypeWaitingTimeout, None), i))
    by (now apply receive_empty).
  assert (B : send_entry p env j e t
              = (Returns (ErrorTypeWaitingTimeout, Some ErrSpaceTimeout), j)).
  { unfold send_entry, Send. rewrite Sj, entry_eta.
    apply Z.leb_gt in T. rewrite T. now apply blocking_full. }
  repeat split; trivial. now rewrite R, B.
Qed.

Lemma timeouts_share_one_kind_witness :
  Receive 0 (fresh 1) 30 = (Returns (None, ErrorTypeWaitingTimeout, None), fresh 1) /\
  send_entry initialProcess (alone first_ready) fullA entryB 1
    = (Returns (ErrorTypeWaitingTimeout, Some ErrSpaceTimeout), fullA) /\
  receive_kind (Receive 0 (fresh 1) 30)
    = send_kind (send_entry initialProcess (alone first_ready) fullA entryB 1).
Proof.
  apply timeouts_share_one_kind.
  - apply fresh_wf. lia.
  - reflexivity.
  - reflexivity.
  - apply with_queue_wf; [apply fresh_wf; lia | simpl; lia].
  - reflexivity.
  - reflexivity.
  - lia.
Defined.

(** C7 as stated fails: the receive that times out on an empty stream and
    the blocking send that times out on a full one return one and the same
    kind, [ErrorTypeWaitingTimeout]. *)
Lemma timeout_kinds_not_distinct :
  ~ distinct_timeout_kinds 0 (fresh 1) 30
      initialProcess (alone first_ready) fullA entryB 1.
Proof. intros H. apply H. reflexivity. Qed.

(** C8.  On a stream in good order the first [Stop] returns nil and
    leaves the stream stopped; a [Stop] after that returns nil and changes
    nothing; so any number of [Stop]s in a row answer nil each and leave
    the stream as a single [Stop] does. *)
Theorem Stop_idempotent (i : InMemoryStreamImpl) (n : nat) :
  wf i ->
  fst (Stop i) = Returns None /\
  stopped (snd (Stop i)) = true /\
  Stop (snd (Stop i)) = (Returns None, snd (Stop i)) /\
  run i (repeat CallStop (S n))
    = (repeat (StopReply (Returns None)) (S n), snd (Stop i)).
Proof.
  intros W. destruct (Stop_returns i W) as (R & _ & S & _).
  assert (A : Stop (snd (Stop i)) = (Returns None, snd (Stop i))).
  { unfold Stop at 1. now rewrite S. }
  repeat split; trivial.
  simpl. destruct (Stop i) as [r i1] eqn:E. simpl in *. subst r.
  assert (T : forall m, run i1 (repeat CallStop m)
                = (repeat (StopReply (Returns None)) m, i1)).
  { induction m as [|m IH]; simpl; [reflexivity|]. now rewrite A, IH. }
  now rewrite T.
Qed.

Lemma Stop_idempotent_witness :
  fst (Stop queuedAB) = Returns None /\
  stopped (snd (Stop queuedAB)) = true /\
  Stop (snd (Stop queuedAB)) = (Returns None, snd (Stop queuedAB)) /\
  run queuedAB (repeat CallStop 3)
    = (repeat (StopReply (Returns None)) 3, snd (Stop queuedAB)).
Proof.
  apply (Stop_idempotent queuedAB 2).
  apply with_queue_wf; [apply fresh_wf; lia | simpl; lia].
Defined.

Lemma run_capacity (cs : list call) :
  forall i, wf i -> capacity (snd (run i cs)) = capacity i.
Proof.
  induction cs as [|c cs IH]; intros i W; simpl; [reflexivity|].
  pose proof (step_wf i c W) as W1.
  assert (C : capacity (snd (step i c)) = capacity i).
  { destruct c as [p env o u ts t|pk t|]; simpl.
    - destruct (Send_keeps p env i o u ts t (wf_fits i W)) as [(_ & C & _) _].
      now destruct (Send p env i o u ts t).
    - destruct (Receive_keeps pk i t (wf_fits i W)) as [(_ & C & _) _].
      now destruct (Receive pk i t).
    - clear W1. open_stream i. unfold Stop, Chan.close. simpl.
      destruct st; simpl; [reflexivity|]. destruct sc; simpl; [reflexivity|].
      now destruct cl. }
  destruct (step i c) as [r i1]. simpl in *.
  rewrite <- C, <- (IH i1 W1). now destruct (run i1 cs).
Qed.

(** C9.  From the stream that [NewInMemoryStreamImpl] returns, after any
    sequence of sends (in either mode, with or without senders of other
    goroutines cutting in), receives and stops, the queue holds no more
    entries than the capacity the stream was made with. *)
Theorem queue_within_capacity (size : Z) (i : InMemoryStreamImpl) (cs : list call) :
  NewInMemoryStreamImpl size = Returns i ->
  capacity (snd (run i cs)) = size /\
  Z.of_nat (length (queue (snd (run i cs)))) <= size.
Proof.
  intros N. apply New_fresh in N. destruct N as [-> P].
  pose proof (fresh_wf size P) as W.
  pose proof (run_capacity cs _ W) as C. simpl in C.
  pose proof (run_wf cs _ W) as (_ & _ & _ & L).
  unfold queue, Chan.len in *. split; [exact C | lia].
Qed.

Lemma queue_within_capacity_witness :
  capacity (snd (run (fresh 2) burst)) = 2 /\
  Z.of_nat (length (queue (snd (run (fresh 2) burst)))) <= 2.
Proof.
  apply (queue_within_capacity 2 (fresh 2) burst). reflexivity.
Defined.

(** ** The overwrite loop under contention *)

Lemma with_queue_self (i : InMemoryStreamImpl) : with_queue i (queue i) = i.
Proof. now destruct i as [[q c cl] st n sc]. Qed.

(** With the cap below [MaxInt64] the loop never runs out of the fuel
    that [sendCircularBufferWithChannel] gives it. *)
Lemma overwrite_loop_fuel (fuel : nat) (max : Z) (env : Env) :
  forall (k : Z) (i : InMemoryStreamImpl) (e : StreamEntry),
  0 <= k < MaxInt64 -> max < MaxInt64 ->
  (Z.to_nat (max - k) < fuel)%nat ->
  fst (overwrite_loop fuel max env k i e) <> OutOfFuel.
Proof.
  induction fuel as [|fuel IH]; intros k i e K M F; [lia|].
  cbn [overwrite_loop].
  assert (N : wrap64 (k + 1) = k + 1) by (apply wrap64_small; unfold MaxInt64 in *; lia).
  rewrite N.
  destruct (max <? k + 1) eqn:E; simpl; [discriminate|].
  apply Z.ltb_ge in E.
  destruct (Chan.recv zeroEntry (outputs i)) as [[x c]| | |] eqn:R; simpl;
    try discriminate.
  - assert (F' : (Z.to_nat (max - (k + 1)) < fuel)%nat) by lia.
    assert (K' : 0 <= k + 1 < MaxInt64) by lia.
    destruct (selectgo _ _) as [[| | |]|]; try (apply IH; assumption).
    + unfold do_send. now destruct (Chan.send _ e).
    + discriminate.
  - exfalso. unfold Chan.recv in R. destruct (Chan.buf (outputs i)); [|discriminate].
    now destruct (Chan.closed (outputs i)).
Qed.

Lemma Send_never_out_of_fuel (p : Process) (env : Env) (i : InMemoryStreamImpl)
    (o : OutputType) (u : UUID) (ts : Time) (t : Z) :
  circularBufferMaxIterations p < MaxInt64 ->
  fst (Send p env i o u ts t) <> OutOfFuel.
Proof.
  intros M.
  unfold Send, stream_stopped. destruct (stopped i) eqn:Hs; [discriminate|].
  destruct (t <=? 0).
  - unfold sendCircularBufferWithChannel, stream_stopped.
    destruct (capacity i =? 0); [discriminate|].
    assert (L : forall e, fst (overwrite_loop (S (Z.to_nat (circularBufferMaxIterations p)))
                     (circularBufferMaxIterations p) env 0 i e) <> OutOfFuel).
    { intros e. apply overwrite_loop_fuel; trivial.
      - unfold MaxInt64. lia.
      - rewrite Z.sub_0_r. lia. }
    assert (D : forall e, fst (do_send i e) <> OutOfFuel).
    { intros e. unfold do_send. now destruct (Chan.send _ e). }
    destruct (selectgo _ _) as [[| | |]|]; rewrite ?Hs; cbv beta iota zeta;
      solve [apply L | apply D | discriminate].
  - unfold sendBlockingQueueWithChannel, stream_stopped.
    destruct (selectgo _ _) as [[| | |]|]; try discriminate.
    unfold do_send. now destruct (Chan.send _ _).
Qed.

(** A full stream whose freed slot is taken by another sender at each of
    the [n] turns still allowed: the loop gives up after those [n] turns,
    having removed [n] entries from the head of what was and came to be
    queued. *)
Lemma overwrite_loop_contended (n : nat) :
  forall (fuel : nat) (max : Z) (env : Env) (k : Z)
         (i : InMemoryStreamImpl) (e : StreamEntry),
  wf i -> stopped i = false -> 1 <= capacity i -> is_full i ->
  0 <= k -> max < MaxInt64 ->
  max = k + Z.of_nat n -> (n < fuel)%nat ->
  (forall j, k < j <= max -> intruder env j <> None) ->
  overwrite_loop fuel max env k i e
    = (Returns (ErrorTypeCircularBufferIterationLimit, Some (ErrStillFull (max + 1))),
       with_queue i (skipn n (queue i ++ arrivals env k n))).
Proof.
  induction n as [|n IH]; intros fuel max env k i e W S C F K X M L B;
    (destruct fuel as [|fuel]; [lia|]); cbn [overwrite_loop];
    (replace (wrap64 (k + 1)) with (k + 1)
       by (symmetry; apply wrap64_small; unfold MaxInt64 in *; lia)).
  - assert (E : (max <? k + 1) = true) by (apply Z.ltb_lt; lia).
    rewrite E. simpl. rewrite app_nil_r, with_queue_self.
    replace (k + 1) with (max + 1) by lia. reflexivity.
  - assert (E : (max <? k + 1) = false) by (apply Z.ltb_ge; lia).
    rewrite E.
    destruct (intruder env (k + 1)) as [v|] eqn:V; [|exfalso; apply (B (k + 1)); [lia|exact V]].
    open_stream i. destruct W as (-> & -> & -> & _). subst st.
    destruct q as [|x rest]; [simpl in F; lia|].
    simpl in F. unfold Chan.recv, Chan.barge, Chan.len. simpl.
    assert (E1 : (Z.of_nat (length rest) <? n0) = true) by (apply Z.ltb_lt; lia).
    rewrite E1. simpl.
    unfold Chan.can_send, Chan.len. simpl.
    assert (E2 : (Z.of_nat (length (rest ++ [v])) <? n0) = false).
    { apply Z.ltb_ge. rewrite length_app, Nat2Z.inj_add. simpl. lia. }
    rewrite E2. unfold poll. simpl filter. simpl map. rewrite ?selectgo_none.
    unfold with_outputs. cbn [outputs stopped capacity stopCh_closed].
    rewrite (IH fuel max env (k + 1)
               (mkStream (Chan.mk (rest ++ [v]) n0 false) false n0 false) e).
    + unfold with_queue, with_outputs, queue. simpl. rewrite V.
      now rewrite <- app_assoc.
    + unfold wf, Chan.len. simpl. repeat split; trivial.
      rewrite length_app, Nat2Z.inj_add. simpl. lia.
    + reflexivity.
    + exact C.
    + unfold is_full, Chan.len. simpl. rewrite length_app, Nat2Z.inj_add. simpl. lia.
    + lia.
    + exact X.
    + lia.
    + lia.
    + intros j J. apply B. lia.
Qed.

(** A send in circular mode that finds the stream full and loses every
    one of the [max] retries it is allowed. *)
Lemma exhausted_after_max_failed_retries_core (p : Process) (env : Env)
    (i : InMemoryStreamImpl) (e : StreamEntry) (t : Z) (max : Z) :
  wf i -> stopped i = false -> 1 <= capacity i -> is_full i ->
  t <= 0 -> 0 <= max < MaxInt64 -> contended env max ->
  send_entry (SetCircularBufferMaxIterations max p) env i e t
    = (Returns (ErrorTypeCircularBufferIterationLimit, Some (ErrStillFull (max + 1))),
       with_queue i (skipn (Z.to_nat max) (queue i ++ arrivals env 0 (Z.to_nat max)))).
Proof.
  intros W Hs C F T M B.
  unfold send_entry, Send. rewrite Hs, entry_eta.
  apply Z.leb_le in T. rewrite T.
  unfold sendCircularBufferWithChannel.
  assert (E0 : (capacity i =? 0) = false) by (apply Z.eqb_neq; lia).
  assert (E1 : Chan.can_send (outputs i) = false).
  { destruct W as (_ & Hc & Hk & _). unfold Chan.can_send, is_full in *.
    rewrite Hc, Hs, Hk. simpl. apply Z.ltb_ge. lia. }
  assert (E2 : stopCh_closed i = false).
  { destruct W as (Hc & _). now rewrite Hc. }
  rewrite E0, E1, E2. unfold poll. simpl filter. simpl map.
  rewrite selectgo_none, Hs. cbv beta iota zeta.
  cbn [circularBufferMaxIterations SetCircularBufferMaxIterations].
  apply overwrite_loop_contended; trivial.
  - lia.
  - lia.
  - lia.
  - lia.
  - intros j J. apply B. lia.
Qed.

(** C6.  The cap on the overwrite loop is 100 in a process that has not
    changed it, and [SetCircularBufferMaxIterations] sets it for the whole
    process.  With the cap at [max], from 0 up to the last [int] but one
    (so that the counter, an [int], can get past it), a send in circular
    mode that finds the stream full and loses each of its [max] retries
    (the slot it frees by removing the oldest entry is taken before it can
    enqueue) returns [ErrorTypeCircularBufferIterationLimit]: by then it
    has removed [max] entries, one per retry, and its own entry is not
    queued. *)
Theorem exhausted_after_max_failed_retries (p : Process) (env : Env)
    (i : InMemoryStreamImpl) (e : StreamEntry) (t : Z) (max : Z) :
  wf i -> stopped i = false -> 1 <= capacity i -> is_full i ->
  t <= 0 -> 0 <= max < MaxInt64 -> contended env max ->
  circularBufferMaxIterations initialProcess = 100 /\
  circularBufferMaxIterations (SetCircularBufferMaxIterations max p) = max /\
  send_entry (SetCircularBufferMaxIterations max p) env i e t
    = (Returns (ErrorTypeCircularBufferIterationLimit, Some (ErrStillFull (max + 1))),
       with_queue i (skipn (Z.to_nat max) (queue i ++ arrivals env 0 (Z.to_nat max)))).
Proof.
  intros W Hs C F T M B. split; [reflexivity|]. split; [reflexivity|].
  now apply exhausted_after_max_failed_retries_core.
Qed.

(** With the default cap of 100 and another sender that takes the freed
    slot every time, the hundred-and-first turn gives up. *)
Lemma exhausted_after_max_failed_retries_witness :
  circularBufferMaxIterations initialProcess = 100 /\
  circularBufferMaxIterations (SetCircularBufferMaxIterations 100 initialProcess) = 100 /\
  send_entry (SetCircularBufferMaxIterations 100 initialProcess) crowded fullA entryC 0
    = (Returns (ErrorTypeCircularBufferIterationLimit, Some (ErrStillFull (100 + 1))),
       with_queue fullA (skipn (Z.to_nat 100) (queue fullA ++ arrivals crowded 0 (Z.to_nat 100)))).
Proof.
  apply exhausted_after_max_failed_retries.
  - apply with_queue_wf; [apply fresh_wf; lia | simpl; lia].
  - reflexivity.
  - simpl. lia.
  - reflexivity.
  - lia.
  - unfold MaxInt64. lia.
  - intros k _. discriminate.
Defined.

(** C10.  With the cap set to 0, a send in circular mode on a full stream
    of capacity 1 or more that is not stopped returns
    [ErrorTypeCircularBufferIterationLimit] and leaves the stream as it
    was, whoever else is around: the cap is tested before the first
    removal, so no entry is removed and the new one is not queued. *)
Theorem zero_cap_gives_up_untouched (p : Process) (env : Env)
    (i : InMemoryStreamImpl) (o : OutputType) (u : UUID) (ts : Time) (t : Z) :
  wf i -> stopped i = false -> 1 <= capacity i -> is_full i -> t <= 0 ->
  Send (SetCircularBufferMaxIterations 0 p) env i o u ts t
    = (Returns (ErrorTypeCircularBufferIterationLimit, Some (ErrStillFull 1)), i).
Proof.
  intros W Hs C F T.
  assert (B : contended env 0) by (intros k K; lia).
  assert (Z0 : 0 <= 0 < MaxInt64) by (unfold MaxInt64; lia).
  pose proof (exhausted_after_max_failed_retries_core p env i (mkEntry u o ts) t 0
                W Hs C F T Z0 B) as E.
  unfold send_entry in E. simpl in E. rewrite app_nil_r, with_queue_self in E.
  exact E.
Qed.

Lemma zero_cap_gives_up_untouched_witness :
  Send (SetCircularBufferMaxIterations 0 initialProcess) (alone first_ready)
       fullA "B"%string 2 20 0
    = (Returns (ErrorTypeCircularBufferIterationLimit, Some (ErrStillFull 1)), fullA).
Proof.
  apply zero_cap_gives_up_untouched.
  - apply with_queue_wf; [apply fresh_wf; lia | simpl; lia].
  - reflexivity.
  - simpl. lia.
  - reflexivity.
  - lia.
Defined.

(** * Further properties of the stream *)

(** ** What one receive does *)

Lemma wf_open (i : InMemoryStreamImpl) :
  wf i -> stopped i = false ->
  stopCh_closed i = false /\ Chan.closed (outputs i) = false /\
  Chan.cap (outputs i) = capacity i /\ Chan.len (outputs i) <= capacity i.
Proof. intros (A & B & C & D) Hs. rewrite A, B, Hs. tauto. Qed.

Lemma Receive_cases (pk : nat) (i : InMemoryStreamImpl) (t : Z) :
  wf i ->
  (exists k er, k <> ErrorTypeNone /\ Receive pk i t = (Returns (None, k, er), i)) \/
  (exists x rest, queue i = x :: rest /\
     Receive pk i t
       = (Returns (Some (response_of x), ErrorTypeNone, None), with_queue i rest)).
Proof.
  intros W. destruct (stopped i) eqn:Hs.
  - left. exists ErrorTypeStreamStopped, (Some ErrStreamStopped).
    split; [discriminate|]. unfold Receive. now rewrite Hs.
  - destruct (wf_open i W Hs) as (A & B & _ & _).
    unfold Receive. rewrite Hs, A. unfold Chan.can_recv. rewrite B.
    destruct i as [[q c cl] st n sc]. unfold queue. simpl in *.
    destruct q as [|x rest]; simpl.
    + left. exists ErrorTypeWaitingTimeout, None. split; [discriminate|].
      unfold poll. simpl. destruct (expired (Duration t)); simpl;
        now rewrite ?selectgo_only, ?selectgo_none.
    + unfold poll. simpl.
      destruct (selectgo pk _) as [[| | |]|] eqn:E.
      * left. exists ErrorTypeWaitingTimeout, None. split; [discriminate|reflexivity].
      * right. exists x, rest. split; reflexivity.
      * exfalso. apply selectgo_In in E.
        destruct (expired (Duration t)); simpl in E; intuition discriminate.
      * left. exists ErrorTypeWaitingTimeout, None. split; [discriminate|reflexivity].
      * left. exists ErrorTypeWaitingTimeout, None. split; [discriminate|reflexivity].
Qed.

(** X5.  Whatever its timeout and whatever the [select] chooses, a receive
    on a stream in good order either hands out nothing and leaves the
    stream as it was, or hands out the oldest queued entry, with
    [ErrorTypeNone] and a nil error, and removes exactly that entry. *)
Theorem Receive_oldest_or_nothing (pk : nat) (i : InMemoryStreamImpl) (t : Z) :
  wf i ->
  (exists k er, k <> ErrorTypeNone /\ Receive pk i t = (Returns (None, k, er), i)) \/
  (exists x rest, queue i = x :: rest /\
     Receive pk i t
       = (Returns (Some (response_of x), ErrorTypeNone, None), with_queue i rest)).
Proof. apply Receive_cases. Qed.

Lemma Receive_oldest_or_nothing_witness :
  (exists k er, k <> ErrorTypeNone /\
     Receive 1 queuedAB 0 = (Returns (None, k, er), queuedAB)) \/
  (exists x rest, queue queuedAB = x :: rest /\
     Receive 1 queuedAB 0
       = (Returns (Some (response_of x), ErrorTypeNone, None), with_queue queuedAB rest)).
Proof.
  apply Receive_oldest_or_nothing.
  apply with_queue_wf; [apply fresh_wf; lia | simpl; lia].
Defined.

(** ** What one send does when nobody else is around *)

Lemma circular_full_no_retry (p : Process) (env : Env) (i : InMemoryStreamImpl)
    (e : StreamEntry) :
  wf i -> stopped i = false -> is_full i -> 1 <= capacity i ->
  circularBufferMaxIterations p <= 0 ->
  sendCircularBufferWithChannel p env i e
    = (Returns (ErrorTypeCircularBufferIterationLimit, Some (ErrStillFull 1)), i).
Proof.
  intros W Hs F C M. destruct (wf_open i W Hs) as (A & B & K & _).
  unfold sendCircularBufferWithChannel, Chan.can_send. rewrite A, B, Hs, K.
  assert (E0 : (capacity i =? 0) = false) by (apply Z.eqb_neq; lia).
  assert (E1 : (Chan.len (outputs i) <? capacity i) = false).
  { apply Z.ltb_ge. unfold is_full in F. lia. }
  rewrite E0, E1. unfold poll. simpl filter. simpl map. rewrite selectgo_none.
  cbv beta iota zeta. cbn [overwrite_loop].
  change (0 + 1) with 1. rewrite !wrap64_one.
  assert (E2 : (circularBufferMaxIterations p <? 1) = true) by (apply Z.ltb_lt; lia).
  now rewrite E2.
Qed.

Lemma blocking_cases (env : Env) (i : InMemoryStreamImpl) (e : StreamEntry) (t : Z) :
  wf i -> stopped i = false ->
  sendBlockingQueueWithChannel env i e t
    = (Returns (ErrorTypeWaitingTimeout, Some ErrSpaceTimeout), i) \/
  (Chan.len (outputs i) < capacity i /\
   sendBlockingQueueWithChannel env i e t
     = (Returns (ErrorTypeNone, None), with_queue i (queue i ++ [e]))).
Proof.
  intros W Hs. destruct (wf_open i W Hs) as (A & B & K & L).
  destruct (Z.ltb_spec (Chan.len (outputs i)) (capacity i)) as [R|R].
  - unfold sendBlockingQueueWithChannel.
    destruct (selectgo _ _) as [[| | |]|] eqn:E; try (left; reflexivity).
    + right. split; [exact R|]. unfold do_send, Chan.send, with_queue, queue.
      rewrite B. reflexivity.
    + exfalso. apply selectgo_In, poll_In in E. rewrite A in E.
      simpl in E. intuition discriminate.
  - left. apply blocking_full; trivial. unfold is_full. lia.
Qed.

Lemma Send_alone_cases (p : Process) (env : Env) (i : InMemoryStreamImpl)
    (e : StreamEntry) (t : Z) :
  wf i -> (forall k, intruder env k = None) ->
  (exists k er, k <> ErrorTypeNone /\ send_entry p env i e t = (Returns (k, er), i)) \/
  (Chan.len (outputs i) < capacity i /\
   send_entry p env i e t
     = (Returns (ErrorTypeNone, None), with_queue i (queue i ++ [e]))) \/
  (is_full i /\ 1 <= capacity i /\
   send_entry p env i e t
     = (Returns (ErrorTypeNone, None), with_queue i (tl (queue i) ++ [e]))).
Proof.
  intros W Q. unfold send_entry, Send. rewrite entry_eta.
  destruct (stopped i) eqn:Hs.
  { left. exists ErrorTypeStreamStopped, (Some ErrStreamStopped).
    split; [discriminate|reflexivity]. }
  destruct (wf_open i W Hs) as (A & B & K & L).
  destruct (t <=? 0).
  - destruct (Z.eq_dec (capacity i) 0) as [Z0|NZ].
    { left. exists ErrorTypeInvalidRequest, (Some ErrZeroCapacity).
      split; [discriminate|]. unfold sendCircularBufferWithChannel. now rewrite Z0. }
    destruct (Z.ltb_spec (Chan.len (outputs i)) (capacity i)) as [R|R].
    { right. left. split; [exact R|]. now apply circular_room. }
    assert (F : is_full i) by (unfold is_full; lia).
    assert (C : 1 <= capacity i).
    { unfold Chan.len in *. lia. }
    destruct (Z_le_gt_dec 1 (circularBufferMaxIterations p)) as [M|M].
    + right. right. repeat split; trivial. now apply circular_full_alone.
    + left. exists ErrorTypeCircularBufferIterationLimit, (Some (ErrStillFull 1)).
      split; [discriminate|]. apply circular_full_no_retry; trivial. lia.
  - destruct (blocking_cases env i e t W Hs) as [T|[R T]].
    + left. exists ErrorTypeWaitingTimeout, (Some ErrSpaceTimeout).
      split; [discriminate|exact T].
    + right. left. split; assumption.
Qed.

(** X10.  With nobody else around, a send on a stream in good order
    always returns, and it is all or nothing: with any kind other than
    [ErrorTypeNone] the stream is exactly as before; with [ErrorTypeNone]
    the error is nil and the entry is the last of the queue, behind the
    entries that were there or, if the stream was full, behind all of them
    but the oldest. *)
Theorem Send_alone_all_or_nothing (p : Process) (env : Env)
    (i : InMemoryStreamImpl) (e : StreamEntry) (t : Z) :
  wf i -> (forall k, intruder env k = None) ->
  exists k er i1,
    send_entry p env i e t = (Returns (k, er), i1) /\
    (k <> ErrorTypeNone -> i1 = i) /\
    (k = ErrorTypeNone ->
       er = None /\
       (queue i1 = queue i ++ [e] \/ (is_full i /\ queue i1 = tl (queue i) ++ [e]))).
Proof.
  intros W Q.
  destruct (Send_alone_cases p env i e t W Q) as [(k & er & N & E)|[(R & E)|(F & C & E)]].
  - exists k, er, i. repeat split; trivial; contradiction.
  - exists ErrorTypeNone, None, (with_queue i (queue i ++ [e])).
    repeat split; trivial; try contradiction. now left.
  - exists ErrorTypeNone, None, (with_queue i (tl (queue i) ++ [e])).
    repeat split; trivial; try contradiction. now right.
Qed.

Lemma Send_alone_all_or_nothing_witness :
  exists k er i1,
    send_entry initialProcess (alone first_ready) fullA entryB 3 = (Returns (k, er), i1) /\
    (k <> ErrorTypeNone -> i1 = fullA) /\
    (k = ErrorTypeNone ->
       er = None /\
       (queue i1 = queue fullA ++ [entryB] \/
        (is_full fullA /\ queue i1 = tl (queue fullA) ++ [entryB]))).
Proof.
  apply Send_alone_all_or_nothing.
  - apply with_queue_wf; [apply fresh_wf; lia | simpl; lia].
  - reflexivity.
Defined.

(** ** Order of delivery *)

Lemma subseq_refl {A : Type} (l : list A) : subseq l l.
Proof. induction l; constructor; assumption. Qed.

Lemma subseq_nil_l {A : Type} (l : list A) : subseq [] l.
Proof. induction l; constructor; assumption. Qed.

Lemma subseq_trans {A : Type} (l1 l2 l3 : list A) :
  subseq l1 l2 -> subseq l2 l3 -> subseq l1 l3.
Proof.
  intros H12 H23. revert l1 H12.
  induction H23 as [|x l2 l3 H IH|x l2 l3 H IH]; intros l1 H12.
  - exact H12.
  - apply subseq_skip. now apply IH.
  - inversion H12; subst.
    + apply subseq_skip. now apply IH.
    + apply subseq_take. now apply IH.
Qed.

Lemma subseq_app {A : Type} (l1 l2 m1 m2 : list A) :
  subseq l1 l2 -> subseq m1 m2 -> subseq (l1 ++ m1) (l2 ++ m2).
Proof.
  intros H K. induction H; simpl; try (constructor; assumption). exact K.
Qed.

Lemma subseq_tl {A : Type} (l : list A) : subseq (tl l) l.
Proof. destruct l; simpl; [constructor|]. constructor. apply subseq_refl. Qed.

Lemma subseq_length {A : Type} (l1 l2 : list A) :
  subseq l1 l2 -> (length l1 <= length l2)%nat.
Proof. induction 1; simpl; lia. Qed.

Lemma entry_of_response (x : StreamEntry) : entry_of (response_of x) = x.
Proof. now destruct x. Qed.

Lemma step_in_order (i : InMemoryStreamImpl) (c : call) :
  wf i -> quiet c ->
  subseq (received_by (fst (step i c)) ++ queue (snd (step i c)))
         (queue i ++ sent_by c).
Proof.
  intros W Q. destruct c as [p env o u ts t|pk t|]; simpl in Q.
  - destruct (Send_alone_cases p env i (mkEntry u o ts) t W Q)
      as [(k & er & N & E)|[(R & E)|(F & C & E)]];
      unfold send_entry in E; simpl in E; simpl; rewrite E; simpl.
    + rewrite <- (app_nil_r (queue i)) at 1.
      apply subseq_app; [apply subseq_refl | apply subseq_nil_l].
    + apply subseq_refl.
    + apply subseq_app; [apply subseq_tl | apply subseq_refl].
  - destruct (Receive_cases pk i t W) as [(k & er & N & E)|(x & rest & Hq & E)];
      simpl; rewrite E; simpl.
    + rewrite app_nil_r. apply subseq_refl.
    + rewrite entry_of_response, app_nil_r, Hq. apply subseq_refl.
  - destruct (Stop_returns i W) as (_ & _ & _ & Hq). simpl.
    destruct (Stop i) as [r i1]. simpl in *. rewrite Hq, app_nil_r. apply subseq_refl.
Qed.

Lemma run_in_order (cs : list call) :
  forall i, wf i -> (forall c, In c cs -> quiet c) ->
  subseq (received_of (fst (run i cs)) ++ queue (snd (run i cs)))
         (queue i ++ sent_of cs).
Proof.
  induction cs as [|c cs IH]; intros i W Q; simpl.
  - rewrite app_nil_r. apply subseq_refl.
  - pose proof (step_in_order i c W (Q c (or_introl eq_refl))) as H1.
    pose proof (step_wf i c W) as W1.
    destruct (step i c) as [r i1]. simpl in H1, W1.
    pose proof (IH i1 W1 (fun c' H => Q c' (or_intror H))) as H2.
    destruct (run i1 cs) as [rs i2]. simpl in *.
    rewrite <- app_assoc, (app_assoc (queue i)).
    apply subseq_trans with (l2 := received_by r ++ (queue i1 ++ sent_of cs)).
    + apply subseq_app; [apply subseq_refl | exact H2].
    + rewrite app_assoc. apply subseq_app; [exact H1 | apply subseq_refl].
Qed.

(** X3.  On a stream made by [NewInMemoryStreamImpl] and used by one
    goroutine at a time, whatever the sends (either mode, any timeout, any
    iteration cap), receives and stops: the entries handed out by the
    receives, in the order of the receives, followed by the entries still
    queued, are entries handed in by the sends, in the order of the sends,
    each one at most once.  Nothing is made up, nothing delivered twice,
    nothing overtakes. *)
Theorem delivered_in_order_of_sending (size : Z) (i : InMemoryStreamImpl)
    (cs : list call) :
  NewInMemoryStreamImpl size = Returns i ->
  (forall c, In c cs -> quiet c) ->
  subseq (received_of (fst (run i cs)) ++ queue (snd (run i cs))) (sent_of cs).
Proof.
  intros N Q. apply New_fresh in N. destruct N as [-> P].
  exact (run_in_order cs (fresh size) (fresh_wf size P) Q).
Qed.

Lemma delivered_in_order_of_sending_witness :
  subseq (received_of (fst (run (fresh 2) mixed)) ++ queue (snd (run (fresh 2) mixed)))
         (sent_of mixed).
Proof.
  apply (delivered_in_order_of_sending 2).
  - reflexivity.
  - intros c H. simpl in H.
    repeat (destruct H as [<-|H]; [simpl; trivial|]). contradiction.
Defined.

(** ** Every call returns *)

Lemma step_returns (i : InMemoryStreamImpl) (c : call) :
  wf i -> quiet c -> returned (fst (step i c)) = true.
Proof.
  intros W Q. destruct c as [p env o u ts t|pk t|]; simpl in Q; simpl.
  - destruct (Send_alone_cases p env i (mkEntry u o ts) t W Q)
      as [(k & er & _ & E)|[(_ & E)|(_ & _ & E)]];
      unfold send_entry in E; simpl in E; now rewrite E.
  - destruct (Receive_cases pk i t W) as [(k & er & _ & E)|(x & rest & _ & E)];
      now rewrite E.
  - destruct (Stop_returns i W) as (E & _).
    destruct (Stop i) as [r' i']. simpl in *. now rewrite E.
Qed.

Lemma run_returns (cs : list call) :
  forall i, wf i -> (forall c, In c cs -> quiet c) ->
  forallb returned (fst (run i cs)) = true.
Proof.
  induction cs as [|c cs IH]; intros i W Q; simpl; [reflexivity|].
  pose proof (step_returns i c W (Q c (or_introl eq_refl))) as R.
  pose proof (step_wf i c W) as W1.
  destruct (step i c) as [r i1]. simpl in *.
  pose proof (IH i1 W1 (fun c' H => Q c' (or_intror H))) as R1.
  destruct (run i1 cs) as [rs i2]. simpl in *.
  now rewrite R, R1.
Qed.

(** X4.  On a stream made by [NewInMemoryStreamImpl] and used by one
    goroutine at a time, every call of every sequence of sends, receives
    and stops returns: a send after [Stop] does not reach the closed
    channel, a second [Stop] does not close a channel again, and the
    overwrite loop, when it is entered, finds an entry to remove and does
    not wait. *)
Theorem every_call_returns (size : Z) (i : InMemoryStreamImpl) (cs : list call) :
  NewInMemoryStreamImpl size = Returns i ->
  (forall c, In c cs -> quiet c) ->
  forallb returned (fst (run i cs)) = true.
Proof.
  intros N Q. apply New_fresh in N. destruct N as [-> P].
  apply run_returns; [apply fresh_wf, P | exact Q].
Qed.

Lemma every_call_returns_witness :
  forallb returned (fst (run (fresh 2) (burst ++ mixed))) = true.
Proof.
  apply (every_call_returns 2).
  - reflexivity.
  - intros c H. simpl in H.
    repeat (destruct H as [<-|H]; [simpl; trivial|]). contradiction.
Defined.

(** ** The overwrite loop, contested or not *)

(** A send in circular mode that finds the stream full goes into the
    loop. *)
Lemma circular_full_enters_loop (p : Process) (env : Env) (i : InMemoryStreamImpl)
    (e : StreamEntry) (t : Z) (fuel : nat) :
  wf i -> stopped i = false -> 1 <= capacity i -> is_full i -> t <= 0 ->
  fuel = Datatypes.S (Z.to_nat (circularBufferMaxIterations p)) ->
  send_entry p env i e t
    = overwrite_loop fuel (circularBufferMaxIterations p) env 0 i e.
Proof.
  intros W Hs C F T ->. destruct (wf_open i W Hs) as (A & B & K & _).
  unfold send_entry, Send. rewrite Hs, entry_eta.
  apply Z.leb_le in T. rewrite T.
  unfold sendCircularBufferWithChannel, Chan.can_send. rewrite A, B, K.
  assert (E0 : (capacity i =? 0) = false) by (apply Z.eqb_neq; lia).
  assert (E1 : (Chan.len (outputs i) <? capacity i) = false).
  { apply Z.ltb_ge. unfold is_full in F. lia. }
  rewrite E0, E1. unfold poll. simpl filter. simpl map.
  now rewrite selectgo_none, Hs.
Qed.

Lemma overwrite_loop_first_free (m : nat) :
  forall (fuel : nat) (max : Z) (env : Env) (k : Z)
         (i : InMemoryStreamImpl) (e : StreamEntry),
  wf i -> stopped i = false -> 1 <= capacity i -> is_full i ->
  0 <= k -> k + Z.of_nat (Datatypes.S m) <= max -> max <= MaxInt64 ->
  (m < fuel)%nat ->
  (forall j, k < j < k + Z.of_nat (Datatypes.S m) -> intruder env j <> None) ->
  intruder env (k + Z.of_nat (Datatypes.S m)) = None ->
  overwrite_loop fuel max env k i e
    = (Returns (ErrorTypeNone, None),
       with_queue i (skipn (Datatypes.S m)
                       (queue i ++ arrivals env k (Datatypes.S m)) ++ [e])).
Proof.
  induction m as [|m IH]; intros fuel max env k i e W Hs C F K M X L Busy Free;
    (destruct fuel as [|fuel]; [lia|]); cbn [overwrite_loop];
    (replace (wrap64 (k + 1)) with (k + 1)
       by (symmetry; apply wrap64_small; unfold MaxInt64 in *; lia));
    assert (E : (max <? k + 1) = false) by (apply Z.ltb_ge; lia);
    rewrite E;
    destruct i as [[q c cl] st n sc];
    unfold wf, is_full, queue, Chan.len in W, F |- *;
    cbn [outputs stopped capacity stopCh_closed Chan.buf Chan.cap Chan.closed]
      in W, F, C, Hs |- *;
    destruct W as (-> & -> & -> & _); subst st;
    (destruct q as [|x rest]; [simpl in F; lia|]); simpl in F;
    unfold Chan.recv, Chan.barge, Chan.len; simpl;
    assert (E1 : (Z.of_nat (length rest) <? n) = true) by (apply Z.ltb_lt; lia).
  - replace (k + 1) with (k + Z.of_nat 1) by lia. rewrite Free.
    unfold Chan.can_send, Chan.len. simpl. rewrite E1.
    unfold poll. simpl. rewrite ?selectgo_only.
    unfold do_send, Chan.send, with_queue, with_outputs, queue. simpl.
    now rewrite app_nil_r.
  - destruct (intruder env (k + 1)) as [v|] eqn:V;
      [|exfalso; apply (Busy (k + 1)); [lia|exact V]].
    rewrite E1. simpl. unfold Chan.can_send, Chan.len. simpl.
    assert (E2 : (Z.of_nat (length (rest ++ [v])) <? n) = false).
    { apply Z.ltb_ge. rewrite length_app, Nat2Z.inj_add. simpl. lia. }
    rewrite E2. unfold poll. simpl filter. simpl map. rewrite ?selectgo_none.
    unfold with_outputs. cbn [outputs stopped capacity stopCh_closed].
    rewrite (IH fuel max env (k + 1)
               (mkStream (Chan.mk (rest ++ [v]) n false) false n false) e).
    + unfold with_queue, with_outputs, queue.
      cbn [outputs Chan.buf Chan.cap Chan.closed stopped capacity stopCh_closed].
      cbn [arrivals]. rewrite ?V. rewrite <- (app_assoc rest). reflexivity.
    + unfold wf, Chan.len. simpl. repeat split; trivial.
      rewrite length_app, Nat2Z.inj_add. simpl. lia.
    + reflexivity.
    + exact C.
    + unfold is_full, Chan.len. simpl. rewrite length_app, Nat2Z.inj_add. simpl. lia.
    + lia.
    + lia.
    + exact X.
    + lia.
    + intros j J. apply Busy. lia.
    + replace (k + 1 + Z.of_nat (Datatypes.S m))
        with (k + Z.of_nat (Datatypes.S (Datatypes.S m))) by lia.
      exact Free.
Qed.

(** X7.  A send in circular mode on a full stream whose first retries are
    lost to senders of other goroutines, these being the only ones to
    touch the stream meanwhile, succeeds at the first retry that is left
    alone, if the cap allows that many: when the freed slot is taken at
    the retries before the [m]-th and not at the [m]-th, the send returns
    [ErrorTypeNone]; by then [m] entries have been removed from the head
    of what was queued and what the others brought, and its own entry is
    the last of the queue. *)
Theorem circular_send_wins_first_free_retry (p : Process) (env : Env)
    (i : InMemoryStreamImpl) (e : StreamEntry) (t : Z) (m : nat) :
  wf i -> stopped i = false -> 1 <= capacity i -> is_full i -> t <= 0 ->
  1 <= Z.of_nat m <= circularBufferMaxIterations p ->
  circularBufferMaxIterations p <= MaxInt64 ->
  (forall j, 1 <= j < Z.of_nat m -> intruder env j <> None) ->
  intruder env (Z.of_nat m) = None ->
  send_entry p env i e t
    = (Returns (ErrorTypeNone, None),
       with_queue i (skipn m (queue i ++ arrivals env 0 m) ++ [e])).
Proof.
  intros W Hs C F T M X Busy Free.
  destruct m as [|m]; [simpl in M; lia|].
  rewrite (circular_full_enters_loop p env i e t _ W Hs C F T eq_refl).
  apply overwrite_loop_first_free; trivial.
  - lia.
  - lia.
  - lia.
  - intros j J. apply Busy. lia.
Qed.

(** The default cap, a stream of capacity 1 holding A, and another sender
    that takes the freed slot twice: the third retry goes through. *)
Lemma circular_send_wins_first_free_retry_witness :
  send_entry initialProcess twice fullA entryC 0
    = (Returns (ErrorTypeNone, None),
       with_queue fullA (skipn 3 (queue fullA ++ arrivals twice 0 3) ++ [entryC])).
Proof.
  apply circular_send_wins_first_free_retry.
  - apply with_queue_wf; [apply fresh_wf; lia | simpl; lia].
  - reflexivity.
  - simpl. lia.
  - reflexivity.
  - lia.
  - simpl. lia.
  - unfold MaxInt64. simpl. lia.
  - intros j J. unfold twice. simpl. destruct (j <=? 2) eqn:E; [discriminate|].
    apply Z.leb_gt in E. simpl in J. lia.
  - reflexivity.
Defined.

(** With the cap at [MaxInt64] the counter cannot get past it: the loop
    never gives up on the count, whatever happens to its retries. *)
Lemma overwrite_loop_no_limit (fuel : nat) (env : Env) :
  forall (k : Z) (i : InMemoryStreamImpl) (e : StreamEntry),
  send_kind (overwrite_loop fuel MaxInt64 env k i e)
    <> Some ErrorTypeCircularBufferIterationLimit.
Proof.
  induction fuel as [|fuel IH]; intros k i e; [discriminate|].
  cbn [overwrite_loop].
  assert (E : (MaxInt64 <? wrap64 (k + 1)) = false).
  { apply Z.ltb_ge. apply wrap64_le_max. }
  rewrite E.
  destruct (Chan.recv zeroEntry (outputs i)) as [[x c]| | |]; try discriminate.
  destruct (selectgo _ _) as [[| | |]|]; try apply IH.
  - unfold do_send. now destruct (Chan.send _ e).
  - discriminate.
Qed.

Lemma no_limit_at_MaxInt64 (p : Process) (env : Env) (i : InMemoryStreamImpl)
    (e : StreamEntry) (t : Z) :
  circularBufferMaxIterations p = MaxInt64 ->
  send_kind (send_entry p env i e t) <> Some ErrorTypeCircularBufferIterationLimit.
Proof.
  intros M. unfold send_entry, Send, stream_stopped.
  destruct (stopped i) eqn:Hs; [discriminate|].
  assert (D : forall j x, send_kind (do_send j x)
                          <> Some ErrorTypeCircularBufferIterationLimit).
  { intros j x. unfold do_send. now destruct (Chan.send _ x). }
  destruct (t <=? 0).
  - unfold sendCircularBufferWithChannel, stream_stopped.
    destruct (capacity i =? 0); [discriminate|].
    generalize (Datatypes.S (Z.to_nat (circularBufferMaxIterations p))). intros fuel.
    rewrite M, Hs.
    destruct (selectgo _ _) as [[| | |]|]; cbv beta iota zeta;
      solve [apply D | apply overwrite_loop_no_limit | discriminate].
  - unfold sendBlockingQueueWithChannel, stream_stopped.
    destruct (selectgo _ _) as [[| | |]|]; solve [apply D | discriminate].
Qed.

(** ** Where the iteration cap matters *)



(** ** A stream of capacity 0 used by one goroutine *)

(** X9.  A stream of capacity 0 takes nothing from a sender that is alone
    with it: in circular mode the send is turned down as an invalid
    request, in blocking mode it times out, whatever the timeout; the
    stream stays empty and unchanged, and a receive on it times out. *)
Theorem zero_capacity_needs_a_partner (p : Process) (env : Env)
    (i : InMemoryStreamImpl) (e : StreamEntry) (t : Z) (pk : nat) (r : Z) :
  wf i -> stopped i = false -> capacity i = 0 ->
  queue i = [] /\
  send_entry p env i e t
    = (Returns (if t <=? 0
                then (ErrorTypeInvalidRequest, Some ErrZeroCapacity)
                else (ErrorTypeWaitingTimeout, Some ErrSpaceTimeout)), i) /\
  Receive pk i r = (Returns (None, ErrorTypeWaitingTimeout, None), i).
Proof.
  intros W Hs C.
  assert (Q : queue i = []).
  { destruct W as (_ & _ & _ & L). unfold queue, Chan.len in *.
    destruct (Chan.buf (outputs i)); [reflexivity|]. simpl in L. lia. }
  repeat split; trivial.
  - unfold send_entry, Send. rewrite Hs, entry_eta. destruct (t <=? 0).
    + unfold sendCircularBufferWithChannel. now rewrite C.
    + apply blocking_full; trivial. unfold is_full, Chan.len.
      unfold queue in Q. rewrite Q, C. reflexivity.
  - now apply receive_empty.
Qed.

Lemma zero_capacity_needs_a_partner_witness :
  queue (fresh 0) = [] /\
  send_entry initialProcess (alone first_ready) (fresh 0) entryA 5
    = (Returns (if 5 <=? 0
                then (ErrorTypeInvalidRequest, Some ErrZeroCapacity)
                else (ErrorTypeWaitingTimeout, Some ErrSpaceTimeout)), fresh 0) /\
  Receive 0 (fresh 0) 30 = (Returns (None, ErrorTypeWaitingTimeout, None), fresh 0).
Proof.
  apply zero_capacity_needs_a_partner.
  - apply fresh_wf. lia.
  - reflexivity.
  - reflexivity.
Defined.

(** ** A receive that does not wait *)

Lemma no_window (t : Z) : - 9223372036 <= t <= 0 -> expired (Duration t) = true.
Proof.
  intros H. unfold expired, Duration, Second.
  rewrite wrap64_small by lia. apply Z.leb_le. lia.
Qed.

(** X8.  A receive with a timeout of zero (or a negative one, down to
    -9223372036) on a stream that holds entries is a draw between the
    queue and the timer that has already run out: when the [select] takes
    its first ready arm the oldest entry is handed out, when it takes the
    second the receive reports [ErrorTypeWaitingTimeout] and the entry
    stays queued. *)
Theorem Receive_without_window (m : nat) (i : InMemoryStreamImpl) (t : Z)
    (x : StreamEntry) (rest : list StreamEntry) :
  wf i -> stopped i = false -> queue i = x :: rest -> - 9223372036 <= t <= 0 ->
  Receive (2 * m) i t
    = (Returns (Some (response_of x), ErrorTypeNone, None), with_queue i rest) /\
  Receive (2 * m + 1) i t
    = (Returns (None, ErrorTypeWaitingTimeout, None), i).
Proof.
  intros W Hs Q T. destruct (wf_open i W Hs) as (A & B & _ & _).
  assert (E0 : ((2 * m) mod 2 = 0)%nat).
  { rewrite Nat.mul_comm. apply Nat.Div0.mod_mul. }
  assert (E1 : ((2 * m + 1) mod 2 = 1)%nat).
  { rewrite Nat.add_comm, (Nat.mul_comm 2 m), Nat.Div0.mod_add. reflexivity. }
  revert E0 E1. generalize (2 * m)%nat (2 * m + 1)%nat. intros a b E0 E1.
  unfold Receive, Chan.can_recv. rewrite Hs, A, B, (no_window t T).
  destruct i as [[q c cl] st n sc]. unfold queue in Q.
  cbn [outputs Chan.buf] in Q. subst q.
  unfold poll, selectgo. simpl filter. simpl map. simpl length.
  rewrite E0, E1. split; reflexivity.
Qed.

Lemma Receive_without_window_witness :
  Receive (2 * 3) queuedAB 0
    = (Returns (Some (response_of entryA), ErrorTypeNone, None),
       with_queue queuedAB [entryB]) /\
  Receive (2 * 3 + 1) queuedAB 0
    = (Returns (None, ErrorTypeWaitingTimeout, None), queuedAB).
Proof.
  apply Receive_without_window.
  - apply with_queue_wf; [apply fresh_wf; lia | simpl; lia].
  - reflexivity.
  - reflexivity.
  - lia.
Defined.

(** ** Sends in a row *)

Lemma step_send_call (p : Process) (env : Env) (t : Z) (e : StreamEntry)
    (i : InMemoryStreamImpl) :
  step i (send_call p env t e)
    = (SendReply (fst (send_entry p env i e t)), snd (send_entry p env i e t)).
Proof.
  unfold send_call, send_entry. simpl. now destruct (Send _ _ _ _ _ _ _).
Qed.

Lemma room_after_append (i : InMemoryStreamImpl) (e : StreamEntry) (r : nat) :
  room i = Datatypes.S r -> room (with_queue i (queue i ++ [e])) = r.
Proof.
  unfold room, with_queue, queue, Chan.len. simpl.
  rewrite length_app, Nat2Z.inj_add. simpl. lia.
Qed.

Lemma blocking_sends_fill (p : Process) (env : Env) (t : Z) (es : list StreamEntry) :
  window t ->
  forall i, wf i -> stopped i = false ->
  run i (map (send_call p env t) es)
    = (repeat send_ok (Nat.min (room i) (length es)) ++
       repeat send_timed_out (length es - room i),
       with_queue i (queue i ++ firstn (room i) es)).
Proof.
  intros T. assert (T0 : (t <=? 0) = false) by (apply Z.leb_gt; unfold window in T; lia).
  induction es as [|e es IH]; intros i W Hs.
  - cbn [map run length].
    rewrite Nat.min_0_r, firstn_nil, (app_nil_r (queue i)), with_queue_self. reflexivity.
  - cbn [map run]. rewrite step_send_call.
    assert (U : send_entry p env i e t = sendBlockingQueueWithChannel env i e t).
    { unfold send_entry, Send. now rewrite Hs, entry_eta, T0. }
    rewrite U. destruct (room i) as [|r] eqn:R.
    + assert (F : is_full i).
      { destruct W as (_ & _ & _ & L). unfold is_full, room in *. lia. }
      rewrite (blocking_full env i e t W Hs F). cbn [fst snd].
      rewrite (IH i W Hs), R. cbn [length]. rewrite !Nat.sub_0_r. reflexivity.
    + assert (L : Chan.len (outputs i) < capacity i) by (unfold room in R; lia).
      rewrite (blocking_room env i e t W Hs L T). cbn [fst snd].
      assert (W1 : wf (with_queue i (queue i ++ [e]))).
      { apply with_queue_wf; trivial. rewrite length_app, Nat2Z.inj_add.
        unfold Chan.len, queue in *. simpl. lia. }
      rewrite (IH _ W1 Hs), (room_after_append i e r R).
      rewrite with_queue_again, with_queue_queue. simpl.
      now rewrite <- app_assoc.
Qed.

(** X1.  Blocking sends in a row, with timeouts between 1 and 9223372036
    seconds and no receiver, fill the stream and then stop: as many sends
    succeed as there was room, the later ones time out with
    [ErrorTypeWaitingTimeout], and the queue is the old queue followed by
    the entries of the sends that succeeded, in their order.  No queued
    entry is lost. *)
Theorem blocking_sends_fill_the_room (p : Process) (env : Env) (t : Z)
    (es : list StreamEntry) (i : InMemoryStreamImpl) :
  window t -> wf i -> stopped i = false ->
  run i (map (send_call p env t) es)
    = (repeat send_ok (Nat.min (room i) (length es)) ++
       repeat send_timed_out (length es - room i),
       with_queue i (queue i ++ firstn (room i) es)).
Proof. intros T W Hs. now apply blocking_sends_fill. Qed.

Lemma blocking_sends_fill_the_room_witness :
  run roomyAB (map (send_call initialProcess crowded 3) [entryC; entryD; entryA])
    = (repeat send_ok (Nat.min (room roomyAB) (length [entryC; entryD; entryA])) ++
       repeat send_timed_out (length [entryC; entryD; entryA] - room roomyAB),
       with_queue roomyAB (queue roomyAB ++ firstn (room roomyAB) [entryC; entryD; entryA])).
Proof.
  apply blocking_sends_fill_the_room.
  - unfold window. lia.
  - apply with_queue_wf; [apply fresh_wf; lia | simpl; lia].
  - reflexivity.
Defined.

Lemma newest_short (cap : Z) (l : list StreamEntry) :
  Z.of_nat (length l) <= cap -> newest cap l = l.
Proof.
  intros L. unfold newest.
  replace (length l - Z.to_nat cap)%nat with 0%nat by lia. reflexivity.
Qed.

Lemma newest_overwritten (cap : Z) (q es : list StreamEntry) (e : StreamEntry) :
  1 <= cap -> Z.of_nat (length q) <= cap ->
  newest cap (overwritten cap q e ++ es) = newest cap (q ++ e :: es).
Proof.
  intros C L. unfold overwritten.
  destruct (Z.ltb_spec (Z.of_nat (length q)) cap) as [R|R].
  - now rewrite <- app_assoc.
  - destruct q as [|x r]; [simpl in R; lia|]. simpl tl. simpl in L, R.
    rewrite <- app_assoc. simpl app. unfold newest.
    cbn [length]. rewrite !length_app. cbn [length].
    replace (Datatypes.S (length r + Datatypes.S (length es)) - Z.to_nat cap)%nat
      with (Datatypes.S (length r + Datatypes.S (length es) - Z.to_nat cap)) by lia.
    reflexivity.
Qed.

Lemma circular_sends_keep (p : Process) (picks : Z -> nat) (t : Z)
    (es : list StreamEntry) :
  1 <= circularBufferMaxIterations p -> t <= 0 ->
  forall i, wf i -> stopped i = false -> 1 <= capacity i ->
  run i (map (send_call p (alone picks) t) es)
    = (repeat send_ok (length es),
       with_queue i (newest (capacity i) (queue i ++ es))).
Proof.
  intros M T. induction es as [|e es IH]; intros i W Hs C.
  - cbn [map run length repeat]. rewrite app_nil_r, newest_short, with_queue_self; trivial.
    destruct W as (_ & _ & _ & L). exact L.
  - cbn [map run]. rewrite step_send_call.
    rewrite (circular_send_alone p picks i e t W Hs C M T). cbn [fst snd].
    assert (Lq : Z.of_nat (length (queue i)) <= capacity i).
    { destruct W as (_ & _ & _ & L). exact L. }
    assert (W1 : wf (with_queue i (overwritten (capacity i) (queue i) e))).
    { apply with_queue_wf; trivial. now apply overwritten_length. }
    rewrite (IH _ W1 Hs C).
    rewrite with_queue_again, with_queue_queue, with_queue_capacity.
    rewrite newest_overwritten; trivial.
Qed.

(** X2.  Circular sends in a row, with the cap at 1 or more and nobody
    else at the stream, all succeed, however many they are, and the stream
    ends up holding the newest entries, as many as its capacity allows:
    the tail of the old queue followed by the new entries.  What is
    dropped is always the oldest. *)
Theorem circular_sends_keep_the_newest (p : Process) (picks : Z -> nat) (t : Z)
    (es : list StreamEntry) (i : InMemoryStreamImpl) :
  1 <= circularBufferMaxIterations p -> t <= 0 ->
  wf i -> stopped i = false -> 1 <= capacity i ->
  run i (map (send_call p (alone picks) t) es)
    = (repeat send_ok (length es),
       with_queue i (newest (capacity i) (queue i ++ es))).
Proof. intros M T W Hs C. now apply circular_sends_keep. Qed.

Lemma circular_sends_keep_the_newest_witness :
  run roomyAB (map (send_call initialProcess (alone first_ready) 0)
                   [entryC; entryD; entryA])
    = (repeat send_ok (length [entryC; entryD; entryA]),
       with_queue roomyAB
         (newest (capacity roomyAB) (queue roomyAB ++ [entryC; entryD; entryA]))).
Proof.
  apply circular_sends_keep_the_newest.
  - simpl. lia.
  - lia.
  - apply with_queue_wf; [apply fresh_wf; lia | simpl; lia].
  - reflexivity.
  - simpl. lia.
Defined.
